(** * Live voice bridge: PCM codec, playback scheduler and session state

    A shallow embedding of the voice pipeline of the translator front-end:
    - [services/geminiService]: [encodeAudioChunk], [decodeBase64Audio],
      [decodeAudioToBuffer];
    - [components/VoiceMode.tsx]: the [onaudioprocess], [onmessage],
      [onended], [onclose] callbacks and [stopLive].

    Around it, the callers of the codec and the text mode:
    - [components/VoiceMode.tsx]: the resumptions of [startLive], and the
      component as a history of events;
    - [services/geminiService]: [translateTextStream] with its cache and
      its offline table, [generateSpeech], [translateImage];
    - [App]: the body of the translation effect, with its chunk callback
      and its catch.

    Conventions.
    - A JavaScript number is a rational [Q]. Every arithmetic step of the
      codec is exact on the values it meets (a Float32 sample times 0x8000
      or 0x7fff fits a double; an Int16 over 32768 fits a Float32), so no
      rounding is lost on finite samples. Clock times are rationals too:
      they are compared exactly, and the sum and the quotient that the
      scheduler takes of them are the rounded ones of [Float64].
    - A JavaScript string is the list of its UTF-16 code units ([list Z]);
      a typed array is the list of its elements, with the wrap-around of
      a store written out.
    - A callback is a computation in the monad [M]: it threads the
      component state together with the audio graph and the transport, and
      it either completes or throws. *)

From Stdlib Require Import String Ascii.
From stdpp Require Import base list gmap.
From Stdlib Require Import ZArith QArith Qround Qminmax Qabs Lqa Lia ZifyBool.
Import ListNotations.

Local Open Scope Z_scope.

(** ** JavaScript strings *)

Abbreviation jsstring := (list Z).

(** The code units of an ASCII literal. *)
Definition js (s : string) : jsstring :=
  map (fun c => Z.of_N (N_of_ascii c)) (list_ascii_of_string s).

(** Exceptions that the modelled calls can raise. *)
Inductive Exn : Type :=
| InvalidCharacterError   (* atob / btoa *)
| RangeError              (* new Int16Array(buffer) on an odd byte length *)
| NotSupportedError       (* createBuffer with zero frames *)
| InvalidStateError       (* AudioScheduledSourceNode.stop *)
| TypeError
| TransportError.

Inductive Res (A : Type) : Type :=
| Ok (a : A)
| Throw (e : Exn).
Arguments Ok {A} a.
Arguments Throw {A} e.

Definition res_bind {A B} (r : Res A) (k : A -> Res B) : Res B :=
  match r with
  | Ok a => k a
  | Throw e => Throw e
  end.

(** ** Doubles

    Clock readings, start times and durations are doubles. Comparing two
    doubles and taking their maximum are exact; their sum and their
    quotient are rounded to the nearest double. The two rounded operations
    are left to the platform, with what rounding to the nearest double
    keeps of the exact ones. For a double [x] and [d >= 0] the exact sum
    is [x] or more, [x] rounds to itself and rounding keeps order: the
    rounded sum is [x] or more. In the same way the quotient of a number
    that is not negative by a positive one is not negative. *)
Class Float64 : Type := {
  fadd : Q -> Q -> Q;
  fdiv : Q -> Q -> Q;
  fadd_ge : forall x d, (0 <= d)%Q -> (x <= fadd x d)%Q;
  fdiv_nonneg : forall x y, (0 <= x)%Q -> (0 < y)%Q -> (0 <= fdiv x y)%Q
}.

(** ** Base64: the platform's [btoa] and [atob] *)

Module Base64.

(** The alphabet of RFC 4648, by index. *)
Definition b64_char (i : Z) : Z :=
  if i <? 26 then 65 + i            (* 'A'..'Z' *)
  else if i <? 52 then 97 + (i - 26) (* 'a'..'z' *)
  else if i <? 62 then 48 + (i - 52) (* '0'..'9' *)
  else if i =? 62 then 43            (* '+' *)
  else 47.                           (* '/' *)

Definition b64_index (c : Z) : option Z :=
  if (65 <=? c) && (c <=? 90) then Some (c - 65)
  else if (97 <=? c) && (c <=? 122) then Some (c - 97 + 26)
  else if (48 <=? c) && (c <=? 57) then Some (c - 48 + 52)
  else if c =? 43 then Some 62
  else if c =? 47 then Some 63
  else None.

Definition pad_char : Z := 61.  (* '=' *)

(** Three octets make four sextets; a tail of one or two octets makes two
    or three, the missing low bits being zero. *)
Fixpoint sextets (bs : list Z) : list Z :=
  match bs with
  | [] => []
  | [a] => [a / 4; (a mod 4) * 16]
  | [a; b] => [a / 4; (a mod 4) * 16 + b / 16; (b mod 16) * 4]
  | a :: b :: c :: rest =>
      a / 4 :: (a mod 4) * 16 + b / 16 :: (b mod 16) * 4 + c / 64 :: c mod 64
        :: sextets rest
  end.

Definition padding (n : nat) : list Z :=
  match (n mod 3)%nat with
  | 1%nat => [pad_char; pad_char]
  | 2%nat => [pad_char]
  | _ => []
  end.

Definition base64_encode (bs : list Z) : jsstring :=
  map b64_char (sextets bs) ++ padding (length bs).

(** [btoa(binary)]: throws InvalidCharacterError when a code unit is above
    0xFF, otherwise encodes the code units as octets. *)
Definition btoa (binary : jsstring) : Res jsstring :=
  if forallb (fun c => (0 <=? c) && (c <=? 255)) binary
  then Ok (base64_encode binary)
  else Throw InvalidCharacterError.

(** Four sextets make three octets; a tail of two or three sextets makes
    one or two, the spare low bits being dropped. *)
Fixpoint unsextets (ss : list Z) : list Z :=
  match ss with
  | p :: q :: r :: s :: rest =>
      p * 4 + q / 16 :: (q mod 16) * 16 + r / 4 :: (r mod 4) * 64 + s
        :: unsextets rest
  | [p; q; r] => [p * 4 + q / 16; (q mod 16) * 16 + r / 4]
  | [p; q] => [p * 4 + q / 16]
  | _ => []
  end.

Definition is_ascii_whitespace (c : Z) : bool :=
  (c =? 9) || (c =? 10) || (c =? 12) || (c =? 13) || (c =? 32).

(** Up to two trailing '=' are dropped when the length is a multiple of 4. *)
Definition strip_padding (l : jsstring) : jsstring :=
  if (length l mod 4 =? 0)%nat then
    match rev l with
    | c1 :: c2 :: r =>
        if c1 =? pad_char then
          if c2 =? pad_char then rev r else rev (c2 :: r)
        else l
    | [c1] => if c1 =? pad_char then [] else l
    | [] => l
    end
  else l.

Fixpoint indices (l : jsstring) : option (list Z) :=
  match l with
  | [] => Some []
  | c :: r =>
      match b64_index c, indices r with
      | Some i, Some ss => Some (i :: ss)
      | _, _ => None
      end
  end.

(** [atob(data)], the forgiving-base64 decode of the HTML standard: strip
    ASCII whitespace, strip the padding, reject a length of 1 modulo 4 and
    any character outside the alphabet, then decode. *)
Definition atob (data : jsstring) : Res jsstring :=
  let d := strip_padding (List.filter (fun c => negb (is_ascii_whitespace c)) data) in
  if (length d mod 4 =? 1)%nat then Throw InvalidCharacterError
  else match indices d with
       | Some ss => Ok (unsextets ss)
       | None => Throw InvalidCharacterError
       end.

End Base64.

(** ** The PCM codec of [services/geminiService] *)

Module Pcm.

(** [Math.max(-1, Math.min(1, x))] *)
Definition clamp (x : Q) : Q := Qmax (-1) (Qmin 1 x).

(** [s < 0 ? s * 0x8000 : s * 0x7fff] *)
Definition scale (s : Q) : Q :=
  match (s ?= 0)%Q with
  | Lt => (s * 32768)%Q
  | _ => (s * 32767)%Q
  end.

(** The integer part of a number: sign(q) * floor(abs(q)). *)
Definition trunc (q : Q) : Z :=
  match (q ?= 0)%Q with
  | Lt => - Qfloor (- q)
  | _ => Qfloor q
  end.

(** Two's-complement wrap to 16 bits. *)
Definition wrap16 (z : Z) : Z := (z + 32768) mod 65536 - 32768.

(** A store into an [Int16Array]: truncate, then wrap. *)
Definition toInt16 (q : Q) : Z := wrap16 (trunc q).

(** The two octets of an Int16 element as a typed-array view shows them
    on a little-endian platform: low octet first. *)
Definition int16_bytes (v : Z) : list Z := [v mod 256; (v / 256) mod 256].

(** [new Uint8Array(int16.buffer)] *)
Definition bytes_of_int16s (vs : list Z) : list Z := flat_map int16_bytes vs.

(** The first loop of [encodeAudioChunk]. *)
Definition quantize (data : list Q) : list Z :=
  map (fun x => let s := clamp x in toInt16 (scale s)) data.

Definition encodeAudioChunk (data : list Q) : Res jsstring :=
  let int16 := quantize data in
  let bytes := bytes_of_int16s int16 in
  (* binary += String.fromCharCode(bytes[i]): one code unit per octet *)
  let binary := bytes in
  Base64.btoa binary.

(** A store into a [Uint8Array]. *)
Definition toUint8 (c : Z) : Z := c mod 256.

Definition decodeBase64Audio (base64 : jsstring) : Res (list Z) :=
  res_bind (Base64.atob base64) (fun binaryString =>
  Ok (map toUint8 binaryString)).

(** The elements of [new Int16Array(buffer)] over an even number of octets. *)
Fixpoint int16s_of_bytes (bs : list Z) : list Z :=
  match bs with
  | lo :: hi :: rest => wrap16 (lo + 256 * hi) :: int16s_of_bytes rest
  | _ => []
  end.

(** [new Int16Array(data.buffer)]: RangeError on an odd byte length. A
    [Uint8Array] is given by its elements: the arrays that reach this view
    are the fresh ones of [decodeBase64Audio], which span their buffer, so
    that the octets of [data.buffer] are these elements. *)
Definition asInt16Array (data : list Z) : Res (list Z) :=
  if Nat.even (length data) then Ok (int16s_of_bytes data)
  else Throw RangeError.

(** A mono [AudioBuffer]; [createBuffer] only makes buffers of a positive
    sample rate. *)
Record AudioBuffer : Type := mkAudioBuffer {
  channelData : list Q;
  sampleRate : positive
}.

(** [buffer.duration]: frames over sample rate, as a double. *)
Definition duration `{Float64} (b : AudioBuffer) : Q :=
  fdiv (inject_Z (Z.of_nat (length (channelData b))))
    (inject_Z (Z.pos (sampleRate b))).

(** [ctx.createBuffer(1, n, 24000)] refuses a length of zero frames; the
    loop then stores [dataInt16[i] / 32768.0]. The context argument only
    serves as the factory and is left out. *)
Definition decodeAudioToBuffer (data : list Z) : Res AudioBuffer :=
  res_bind (asInt16Array data) (fun dataInt16 =>
  if (length dataInt16 =? 0)%nat then Throw NotSupportedError
  else Ok (mkAudioBuffer
             (map (fun v => (inject_Z v / 32768)%Q) dataInt16) 24000)).

(** Encode, then decode: what the peer would play back. *)
Definition roundtrip (x : list Q) : Res AudioBuffer :=
  res_bind (encodeAudioChunk x) (fun base64 =>
  res_bind (decodeBase64Audio base64) decodeAudioToBuffer).

End Pcm.

(** ** The voice-mode component of [components/VoiceMode.tsx] *)

Module Voice.
Import Pcm.

Inductive Status : Type := idle | listening | speaking | thinking.

Inductive Role : Type := User | Model.

Record TranscriptLine : Type := mkLine {
  text : jsstring;
  role : Role
}.

(** [currentTranscriptionRef.current] *)
Record Transcription : Type := mkTranscription {
  user : jsstring;
  model : jsstring
}.

(** [AudioContext.state], as far as [close()] is concerned. *)
Inductive ContextState : Type := running | closed.

(** An [AudioBufferSourceNode] of the output context. *)
Record SourceNode : Type := mkSource {
  buffer : AudioBuffer;
  startedAt : option Q;   (* the argument of start(), once called *)
  stopped : bool;         (* stop() went through *)
  ended : bool            (* playback ran to its end *)
}.

(** The argument of [sendRealtimeInput]. *)
Record Media : Type := mkMedia {
  data : jsstring;
  mimeType : jsstring
}.

(** The React state and the refs of the component, then what they point
    into: the source nodes of the output context (a node is named by its
    index) and the transport. *)
Record World : Type := mkWorld {
  isLive : bool;
  status : Status;
  transcripts : list TranscriptLine;
  sessionRef : option nat;
  inputCtxRef : option ContextState;
  outputCtxRef : option ContextState;
  nextStartTimeRef : Q;
  currentTranscriptionRef : Transcription;
  audioSourcesRef : list nat;          (* a Set, in insertion order *)
  nodes : list SourceNode;
  sent : list (nat * Media);
  closedSessions : list nat
}.

Definition initial : World :=
  mkWorld false idle [] None None None 0%Q (mkTranscription [] []) [] [] [] [].

Definition set_isLive (b : bool) (w : World) : World :=
  mkWorld b (status w) (transcripts w) (sessionRef w) (inputCtxRef w)
    (outputCtxRef w) (nextStartTimeRef w) (currentTranscriptionRef w)
    (audioSourcesRef w) (nodes w) (sent w) (closedSessions w).
Definition set_status (s : Status) (w : World) : World :=
  mkWorld (isLive w) s (transcripts w) (sessionRef w) (inputCtxRef w)
    (outputCtxRef w) (nextStartTimeRef w) (currentTranscriptionRef w)
    (audioSourcesRef w) (nodes w) (sent w) (closedSessions w).
Definition set_transcripts (t : list TranscriptLine) (w : World) : World :=
  mkWorld (isLive w) (status w) t (sessionRef w) (inputCtxRef w)
    (outputCtxRef w) (nextStartTimeRef w) (currentTranscriptionRef w)
    (audioSourcesRef w) (nodes w) (sent w) (closedSessions w).
Definition set_sessionRef (s : option nat) (w : World) : World :=
  mkWorld (isLive w) (status w) (transcripts w) s (inputCtxRef w)
    (outputCtxRef w) (nextStartTimeRef w) (currentTranscriptionRef w)
    (audioSourcesRef w) (nodes w) (sent w) (closedSessions w).
Definition set_inputCtxRef (c : option ContextState) (w : World) : World :=
  mkWorld (isLive w) (status w) (transcripts w) (sessionRef w) c
    (outputCtxRef w) (nextStartTimeRef w) (currentTranscriptionRef w)
    (audioSourcesRef w) (nodes w) (sent w) (closedSessions w).
Definition set_outputCtxRef (c : option ContextState) (w : World) : World :=
  mkWorld (isLive w) (status w) (transcripts w) (sessionRef w) (inputCtxRef w)
    c (nextStartTimeRef w) (currentTranscriptionRef w)
    (audioSourcesRef w) (nodes w) (sent w) (closedSessions w).
Definition set_nextStartTimeRef (t : Q) (w : World) : World :=
  mkWorld (isLive w) (status w) (transcripts w) (sessionRef w) (inputCtxRef w)
    (outputCtxRef w) t (currentTranscriptionRef w)
    (audioSourcesRef w) (nodes w) (sent w) (closedSessions w).
Definition set_currentTranscriptionRef (c : Transcription) (w : World) : World :=
  mkWorld (isLive w) (status w) (transcripts w) (sessionRef w) (inputCtxRef w)
    (outputCtxRef w) (nextStartTimeRef w) c
    (audioSourcesRef w) (nodes w) (sent w) (closedSessions w).
Definition set_audioSourcesRef (l : list nat) (w : World) : World :=
  mkWorld (isLive w) (status w) (transcripts w) (sessionRef w) (inputCtxRef w)
    (outputCtxRef w) (nextStartTimeRef w) (currentTranscriptionRef w)
    l (nodes w) (sent w) (closedSessions w).
Definition set_nodes (l : list SourceNode) (w : World) : World :=
  mkWorld (isLive w) (status w) (transcripts w) (sessionRef w) (inputCtxRef w)
    (outputCtxRef w) (nextStartTimeRef w) (currentTranscriptionRef w)
    (audioSourcesRef w) l (sent w) (closedSessions w).
Definition set_sent (l : list (nat * Media)) (w : World) : World :=
  mkWorld (isLive w) (status w) (transcripts w) (sessionRef w) (inputCtxRef w)
    (outputCtxRef w) (nextStartTimeRef w) (currentTranscriptionRef w)
    (audioSourcesRef w) (nodes w) l (closedSessions w).
Definition set_closedSessions (l : list nat) (w : World) : World :=
  mkWorld (isLive w) (status w) (transcripts w) (sessionRef w) (inputCtxRef w)
    (outputCtxRef w) (nextStartTimeRef w) (currentTranscriptionRef w)
    (audioSourcesRef w) (nodes w) (sent w) l.

(** *** Callbacks as computations: state plus exceptions *)

Definition M (A : Type) : Type := World -> Res A * World.

#[export] Instance M_ret : MRet M := fun A a w => (Ok a, w).

#[export] Instance M_bind : MBind M := fun A B k m w =>
  match m w with
  | (Ok a, w') => k a w'
  | (Throw e, w') => (Throw e, w')
  end.

Definition throw {A} (e : Exn) : M A := fun w => (Throw e, w).

(** [try { m } catch (e) { h e }] *)
Definition try_catch {A} (m : M A) (h : Exn -> M A) : M A := fun w =>
  match m w with
  | (Ok a, w') => (Ok a, w')
  | (Throw e, w') => h e w'
  end.

Definition get : M World := fun w => (Ok w, w).
Definition modify (f : World -> World) : M unit := fun w => (Ok tt, f w).
Definition lift {A} (r : Res A) : M A := fun w => (r, w).

(** The state a callback leaves behind, and how it ended. *)
Definition exec {A} (m : M A) (w : World) : World := snd (m w).
Definition outcome {A} (m : M A) (w : World) : Res A := fst (m w).

(** [set.forEach(f)]; an exception of [f] leaves the loop. *)
Fixpoint forEach {A} (l : list A) (f : A -> M unit) : M unit :=
  match l with
  | [] => mret tt
  | x :: rest => f x ;; forEach rest f
  end.

(** [Set.prototype.add] and [Set.prototype.delete] *)
Definition set_add (s : nat) (l : list nat) : list nat :=
  if decide (s ∈ l) then l else l ++ [s].
Definition set_delete (s : nat) (l : list nat) : list nat :=
  List.filter (fun x => negb (x =? s)%nat) l.

(** *** JavaScript strings: truthiness, concatenation, [trim] *)

Definition truthy (s : jsstring) : bool :=
  match s with
  | [] => false
  | _ => true
  end.

(** The text of a transcription object; [s += undefined] appends the
    nine code units of "undefined". *)
Definition text_of (t : option jsstring) : jsstring :=
  match t with
  | Some s => s
  | None => js "undefined"%string
  end.

(** WhiteSpace and LineTerminator code units of ECMAScript. *)
Definition is_white_space (c : Z) : bool :=
  ((9 <=? c) && (c <=? 13)) || (c =? 32) || (c =? 160) || (c =? 5760)
  || ((8192 <=? c) && (c <=? 8202)) || (c =? 8232) || (c =? 8233)
  || (c =? 8239) || (c =? 8287) || (c =? 12288) || (c =? 65279).

Fixpoint trim_start (s : jsstring) : jsstring :=
  match s with
  | c :: rest => if is_white_space c then trim_start rest else s
  | [] => []
  end.

Definition trim (s : jsstring) : jsstring :=
  rev (trim_start (rev (trim_start s))).

(** *** The platform calls the callbacks make *)

(** A message of the live session, as far as [onmessage] reads it:
    [serverContent.inputTranscription] and [.outputTranscription] (the
    object, then its optional [text]), [.turnComplete],
    [.modelTurn.parts[0].inlineData.data] and [.interrupted]. *)
Record ServerMsg : Type := mkMsg {
  inputTranscription : option (option jsstring);
  outputTranscription : option (option jsstring);
  turnComplete : bool;
  audioData : option jsstring;
  interrupted : bool
}.

Definition setIsLive (b : bool) : M unit := modify (set_isLive b).
Definition setStatus (s : Status) : M unit := modify (set_status s).

(** [outputCtx.createBufferSource()], [source.buffer = buffer] and
    [source.connect(outputCtx.destination)]: a fresh node, not started. *)
Definition createBufferSource (b : AudioBuffer) : M nat := fun w =>
  (Ok (length (nodes w)), set_nodes (nodes w ++ [mkSource b None false false]) w).

(** [source.start(when)]: InvalidStateError on a second call. *)
Definition source_start (s : nat) (when : Q) : M unit := fun w =>
  match nodes w !! s with
  | Some n =>
      match startedAt n with
      | None =>
          (Ok tt, set_nodes
                    (<[s := mkSource (buffer n) (Some when) (stopped n) (ended n)]>
                       (nodes w)) w)
      | Some _ => (Throw InvalidStateError, w)
      end
  | None => (Throw TypeError, w)
  end.

Definition mark_stopped (n : SourceNode) : SourceNode :=
  mkSource (buffer n) (startedAt n) true (ended n).

(** [AudioContext.close()] returns a promise: it resolves and the context
    becomes closed, or it rejects on a context that is closed already.
    The call itself never throws. *)
Definition ctx_close (c : ContextState) : ContextState * Res unit :=
  match c with
  | running => (closed, Ok tt)
  | closed => (closed, Throw InvalidStateError)
  end.

(** [sessionRef.current.sendRealtimeInput({ media })] *)
Definition sendRealtimeInput (sess : nat) (media : Media) : M unit :=
  modify (fun w => set_sent (sent w ++ [(sess, media)]) w).

Section Callbacks.

(** Which nodes make [stop()] throw, and which sessions make [close()]
    throw, is the platform's business: the callbacks are read for every
    such behaviour. *)
Variable stop_throws : SourceNode -> bool.
Variable close_throws : nat -> bool.

(** The arithmetic of the clock: [startTime + buffer.duration] is a sum
    of doubles. *)
Context {F : Float64}.

(** [s.stop()] *)
Definition source_stop (s : nat) : M unit := fun w =>
  match nodes w !! s with
  | Some n =>
      if stop_throws n then (Throw InvalidStateError, w)
      else (Ok tt, set_nodes (<[s := mark_stopped n]> (nodes w)) w)
  | None => (Throw TypeError, w)
  end.

(** [sessionRef.current.close()] *)
Definition session_close (sess : nat) : M unit := fun w =>
  if close_throws sess then (Throw TransportError, w)
  else (Ok tt, set_closedSessions (sess :: closedSessions w) w).

(** [s => { try { s.stop(); } catch (e) {} }] *)
Definition try_stop (s : nat) : M unit :=
  try_catch (source_stop s) (fun _ => mret tt).

(** [audioSourcesRef.current.forEach(s => { try { s.stop(); } catch (e) {} })] *)
Definition stopEach : M unit :=
  w ← get;
  forEach (audioSourcesRef w) try_stop.

(** [processor.onaudioprocess] *)
Definition onaudioprocess (inputData : list Q) : M unit :=
  w ← get;
  match sessionRef w with
  | Some sess =>
      base64 ← lift (encodeAudioChunk inputData);
      sendRealtimeInput sess (mkMedia base64 (js "audio/pcm;rate=16000"%string))
  | None => mret tt
  end.

(** [onmessage], part 1: the transcription deltas. *)
Definition receiveTranscriptions (msg : ServerMsg) : M unit :=
  match inputTranscription msg with
  | Some t =>
      modify (fun w =>
        let cur := currentTranscriptionRef w in
        set_currentTranscriptionRef
          (mkTranscription (user cur ++ text_of t) (model cur)) w);;
      setStatus thinking
  | None => mret tt
  end;;
  match outputTranscription msg with
  | Some t =>
      modify (fun w =>
        let cur := currentTranscriptionRef w in
        set_currentTranscriptionRef
          (mkTranscription (user cur) (model cur ++ text_of t)) w);;
      setStatus speaking
  | None => mret tt
  end.

(** [onmessage], part 1 continued: the turn-complete marker. *)
Definition completeTurn (msg : ServerMsg) : M unit :=
  if turnComplete msg then
    w ← get;
    let userText := trim (user (currentTranscriptionRef w)) in
    let modelText := trim (model (currentTranscriptionRef w)) in
    (if truthy userText || truthy modelText then
       modify (fun w => set_transcripts
         (transcripts w
            ++ (if truthy userText then [mkLine userText User] else [])
            ++ (if truthy modelText then [mkLine modelText Model] else [])) w)
     else mret tt);;
    modify (set_currentTranscriptionRef (mkTranscription [] []));;
    setStatus listening
  else mret tt.

(** [onmessage], part 2 after the decoding: schedule one buffer at the
    clock reading [now]. *)
Definition scheduleBuffer (b : AudioBuffer) (now : Q) : M unit :=
  source ← createBufferSource b;
  w ← get;
  let startTime := Qmax now (nextStartTimeRef w) in
  source_start source startTime;;
  modify (set_nextStartTimeRef (fadd startTime (duration b)));;
  modify (fun w => set_audioSourcesRef (set_add source (audioSourcesRef w)) w).

(** [onmessage], part 2: the inline audio. A payload that does not decode
    makes the handler throw here. *)
Definition playAudio (msg : ServerMsg) (now : Q) : M unit :=
  match audioData msg with
  | Some audioData =>
      if truthy audioData then
        bytes ← lift (decodeBase64Audio audioData);
        b ← lift (decodeAudioToBuffer bytes);
        scheduleBuffer b now
      else mret tt
  | None => mret tt
  end.

(** [onmessage], part 3: the interruption marker. *)
Definition handleInterruption (msg : ServerMsg) (now : Q) : M unit :=
  if interrupted msg then
    stopEach;;
    modify (set_audioSourcesRef []);;
    modify (set_nextStartTimeRef now);;
    setStatus listening
  else mret tt.

(** [onmessage]; [now] is the reading of [outputCtx.currentTime] while the
    handler runs. *)
Definition onmessage (msg : ServerMsg) (now : Q) : M unit :=
  receiveTranscriptions msg;;
  completeTurn msg;;
  playAudio msg now;;
  handleInterruption msg now.

(** [source.onended] *)
Definition onended (source : nat) : M unit :=
  modify (fun w => set_audioSourcesRef (set_delete source (audioSourcesRef w)) w).

(** [ref.current?.close()], the promise being dropped. *)
Definition close_ctx (c : option ContextState) : option ContextState :=
  match c with
  | Some st => Some (fst (ctx_close st))
  | None => None
  end.

Definition stopLive : M unit :=
  stopEach;;
  modify (set_audioSourcesRef []);;
  (w ← get;
   match sessionRef w with
   | Some sess =>
       try_catch (session_close sess) (fun _ => mret tt);;
       modify (set_sessionRef None)
   | None => mret tt
   end);;
  modify (fun w => set_inputCtxRef (close_ctx (inputCtxRef w)) w);;
  modify (fun w => set_outputCtxRef (close_ctx (outputCtxRef w)) w);;
  setIsLive false;;
  setStatus idle;;
  modify (set_nextStartTimeRef 0%Q).

Definition onopen : M unit := setIsLive true;; setStatus listening.
Definition onerror : M unit := stopLive.
Definition onclose : M unit := setIsLive false;; setStatus idle.

(** A run of the message handler over the arriving messages, each with
    its clock reading; a handler that throws is a rejected promise and the
    next message is handled all the same. *)
Fixpoint onmessages (evs : list (ServerMsg * Q)) (w : World) : World :=
  match evs with
  | [] => w
  | (msg, now) :: rest => onmessages rest (exec (onmessage msg now) w)
  end.

End Callbacks.

(** A run of the scheduling step over decoded buffers with their clock
    readings. *)
Fixpoint scheduleAll `{Float64} (bs : list (AudioBuffer * Q)) (w : World)
    : World :=
  match bs with
  | [] => w
  | (b, now) :: rest => scheduleAll rest (exec (scheduleBuffer b now) w)
  end.

(** The start time of node [s], if it was started. *)
Definition startOf (w : World) (s : nat) : option Q :=
  match nodes w !! s with
  | Some n => startedAt n
  | None => None
  end.

End Voice.

(** ** Vocabulary of the statements *)

Import Base64 Pcm Voice.

Definition octet (b : Z) : Prop := 0 <= b < 256.
Definition sextet (s : Z) : Prop := 0 <= s < 64.
Definition int16 (v : Z) : Prop := -32768 <= v <= 32767.
Definition unit_sample (x : Q) : Prop := (-1 <= x <= 1)%Q.

(** The encoder in the words of the specification: scale a sample by 32768
    when negative and by 32767 otherwise, keep the integer part, clamp it
    to the 16-bit range, lay the integers out low octet first, and
    base64-encode the octets. *)
Definition clamp16 (z : Z) : Z := Z.max (-32768) (Z.min 32767 z).

Definition spec_sample (s : Q) : Z :=
  clamp16 (trunc (if Qlt_le_dec s 0 then s * 32768 else s * 32767)%Q).

(** [clamp(x, -1, 1)] in the words of the claim: -1 below -1, 1 above 1,
    and the sample itself in between. *)
Definition saturate (x : Q) : Q :=
  if Qlt_le_dec x (-1) then (-1)%Q
  else if Qlt_le_dec 1 x then 1%Q
  else x.

Definition little_endian (v : Z) : list Z :=
  [Z.land v 255; Z.land (Z.shiftr v 8) 255].

Definition encode_spec (x : list Q) : jsstring :=
  base64_encode (concat (map little_endian (map spec_sample x))).

(** The state after one buffer has been scheduled at clock reading [now]. *)
Definition scheduled `{Float64} (b : AudioBuffer) (now : Q) (w : World)
    : World :=
  let startTime := Qmax now (nextStartTimeRef w) in
  set_audioSourcesRef (set_add (length (nodes w)) (audioSourcesRef w))
    (set_nextStartTimeRef (fadd startTime (duration b))
       (set_nodes (nodes w ++ [mkSource b (Some startTime) false false]) w)).

(** What the turn-complete marker appends to the log. *)
Definition flushed (userText modelText : jsstring) : list TranscriptLine :=
  (if truthy userText then [mkLine userText User] else [])
  ++ (if truthy modelText then [mkLine modelText Model] else []).

(** Parts 1 and 2 of [onmessage], up to the interruption part. *)
Definition before_interruption `{Float64} (msg : ServerMsg) (now : Q)
    : M unit :=
  receiveTranscriptions msg;; completeTurn msg;; playAudio msg now.

(** The sessions closed once [stopLive] has run. *)
Definition closed_after (close_throws : nat -> bool) (w : World) : list nat :=
  match sessionRef w with
  | Some sess =>
      if close_throws sess then closedSessions w else sess :: closedSessions w
  | None => closedSessions w
  end.

(** Two states with the same playback side: nodes, nextStartTime and
    active-source set. *)
Definition same_playback (w w' : World) : Prop :=
  nodes w = nodes w'
  /\ nextStartTimeRef w = nextStartTimeRef w'
  /\ audioSourcesRef w = audioSourcesRef w'.

(** *** Sample platforms, buffers, messages and states *)

(** The doubles of the sample runs: sums and quotients that lose
    nothing. *)
Definition exact_sums : Float64.
Proof.
  refine {| fadd := Qplus; fdiv := Qdiv |}.
  - intros x d Hd. lra.
  - intros x y Hx Hy. apply Qle_shift_div_l; [exact Hy | lra].
Defined.

(** A platform on which no call throws. *)
Definition never (A : Type) : A -> bool := fun _ => false.

(** A platform on which [stop()] throws on a node that has ended. *)
Definition throws_when_ended (n : SourceNode) : bool := ended n.

Definition tone (frames : nat) : AudioBuffer :=
  mkAudioBuffer (repeat 0%Q frames) 24000.

(** A live session: two buffers in flight, a finished model turn in the
    log and a user delta waiting in the accumulator. *)
Definition busy : World :=
  set_sessionRef (Some 0%nat)
    (onmessages (F := exact_sums) (never SourceNode)
       [(mkMsg None (Some (Some (js "Hola"))) true None false, 0%Q);
        (mkMsg (Some (Some (js "hi"))) None false None false, 0%Q)]
       (scheduleAll (H := exact_sums) [(tone 24, 0%Q); (tone 12, 0%Q)]
          (exec onopen initial))).

(** The same session once the first buffer has played to its end while
    still being tracked. *)
Definition busy_ended : World :=
  set_nodes (<[0%nat := mkSource (tone 24) (Some 0%Q) false true]> (nodes busy))
    busy.

(** The payload of three samples, as the peer would send it. *)
Definition chunk : jsstring :=
  match encodeAudioChunk [1; 0; -1]%Q with
  | Ok s => s
  | Throw _ => []
  end.

(** The buffer that [chunk] decodes to: three samples at 24000 Hz. *)
Definition chunk_buffer : AudioBuffer :=
  mkAudioBuffer [32767 # 32768; 0 # 32768; -32768 # 32768]%Q 24000.

(** An interruption that comes with audio, one that comes alone, and one
    that comes with a payload that is not base64. *)
Definition interrupt_with_audio : ServerMsg := mkMsg None None false (Some chunk) true.
Definition interrupt_alone : ServerMsg := mkMsg None None false None true.
Definition interrupt_with_garbage : ServerMsg :=
  mkMsg None None false (Some (js "!")) true.

(** A model delta closing its turn. *)
Definition hola_turn : ServerMsg :=
  mkMsg None (Some (Some (js "Hola "))) true None false.

(** ** The session as a history of events *)

(** *** Start-up, and the callbacks as events *)

(** [startLive], lines 52-54: what runs once the microphone is granted and
    both contexts are made. *)
Definition startLive_contexts : M unit :=
  modify (set_inputCtxRef (Some running));;
  modify (set_outputCtxRef (Some running));;
  modify (set_nextStartTimeRef 0%Q).

(** [startLive], line 158: what runs once the session promise resolves. *)
Definition startLive_session (sess : nat) : M unit :=
  modify (set_sessionRef (Some sess)).

(** [startLive], lines 159-162: the catch. *)
Definition startLive_failed : M unit := setStatus idle.

(** Whatever can run on the component: the resumptions of [startLive],
    the session callbacks, the capture callback, the end of a source, and
    the stop button or the unmount. *)
Inductive Event : Type :=
| MicGranted
| Connected (sess : nat)
| StartFailed
| Opened
| Message (msg : ServerMsg) (now : Q)
| AudioProcess (inputData : list Q)
| Ended (source : nat)
| Errored
| Closed
| Stop.

Definition handle `{Float64} (stop_throws : SourceNode -> bool)
    (close_throws : nat -> bool) (ev : Event) : M unit :=
  match ev with
  | MicGranted => startLive_contexts
  | Connected sess => startLive_session sess
  | StartFailed => startLive_failed
  | Opened => onopen
  | Message msg now => onmessage stop_throws msg now
  | AudioProcess inputData => onaudioprocess inputData
  | Ended source => onended source
  | Errored => onerror stop_throws close_throws
  | Closed => onclose
  | Stop => stopLive stop_throws close_throws
  end.

(** The state after a history of events; a callback that throws leaves
    the state it had reached. *)
Fixpoint run `{Float64} (stop_throws : SourceNode -> bool)
    (close_throws : nat -> bool) (evs : list Event) (w : World) : World :=
  match evs with
  | [] => w
  | ev :: rest =>
      run stop_throws close_throws rest
        (exec (handle stop_throws close_throws ev) w)
  end.

(** The active-source set is a set, names nodes of the graph only, and
    every node of the graph has been started. *)
Definition coherent (w : World) : Prop :=
  NoDup (audioSourcesRef w)
  /\ (forall s, s ∈ audioSourcesRef w -> (s < length (nodes w))%nat)
  /\ Forall (fun n => startedAt n <> None) (nodes w).

(** Web Audio: [stop()] throws only on a node that was never started. *)
Definition throws_unless_started (n : SourceNode) : bool :=
  match startedAt n with
  | None => true
  | Some _ => false
  end.

(** The inline audio of a message, decoded as part 2 of [onmessage]
    decodes it: none, a buffer, or the exception of the decoding. *)
Definition inline_audio (msg : ServerMsg) : Res (option AudioBuffer) :=
  match audioData msg with
  | Some d =>
      if truthy d then
        res_bind (decodeBase64Audio d) (fun bytes =>
        res_bind (decodeAudioToBuffer bytes) (fun b => Ok (Some b)))
      else Ok None
  | None => Ok None
  end.

Definition completes {A} (r : Res A) : bool :=
  match r with
  | Ok _ => true
  | Throw _ => false
  end.

(** The text a transcription field adds to its accumulator. *)
Definition delta (t : option (option jsstring)) : jsstring :=
  match t with
  | Some t => text_of t
  | None => []
  end.

(** No white space at either end. *)
Definition trimmed (s : jsstring) : Prop :=
  (forall c, head s = Some c -> is_white_space c = false)
  /\ (forall c, last s = Some c -> is_white_space c = false).

(** The chunk of a captured frame: the PCM mime type and the encoding of
    that frame, which decodes to two octets per sample. *)
Definition pcm_chunk (frame : list Q) (m : Media) : Prop :=
  mimeType m = js "audio/pcm;rate=16000"
  /\ encodeAudioChunk frame = Ok (data m)
  /\ exists bytes,
       decodeBase64Audio (data m) = Ok bytes
       /\ length bytes = (2 * length frame)%nat.

(** The frames that the capture callback was given in a history, in
    order. *)
Definition captured (evs : list Event) : list (list Q) :=
  flat_map (fun ev => match ev with
                      | AudioProcess inputData => [inputData]
                      | _ => []
                      end) evs.

(** The sessions [startLive] has obtained in a history. *)
Definition connected (evs : list Event) : list nat :=
  flat_map (fun ev => match ev with Connected sess => [sess] | _ => [] end) evs.

(** The buffers that a run of messages makes the callback schedule, each
    with the clock reading of its message. *)
Definition decoded (evs : list (ServerMsg * Q)) : list (AudioBuffer * Q) :=
  omap (fun ev => match inline_audio (fst ev) with
                  | Ok (Some b) => Some (b, snd ev)
                  | _ => None
                  end) evs.

(** What a stored integer becomes when its decoded sample is encoded
    again. *)
Definition reencoded (v : Z) : Z := if 0 <? v then v - 1 else v.

(** A message that carries audio only, and a session that receives two
    of them around a captured frame. *)
Definition audio_message : ServerMsg := mkMsg None None false (Some chunk) false.

Definition session_history : list Event :=
  [MicGranted; Opened; Connected 7; Message audio_message 0%Q;
   AudioProcess [1 # 2; -1 # 2]%Q; Message audio_message 0%Q].

(** ** The rest of [services/geminiService], and its table *)

Module Service.

(** [a === b] on strings. *)
Definition jseq (a b : jsstring) : bool := bool_decide (a = b).

(** *** [constants.ts] *)

Record Language : Type := mkLanguage {
  code : jsstring;
  name : jsstring;
  flag : jsstring
}.

(** The flag of a country: its two regional-indicator letters, each a
    surrogate pair. *)
Definition flag_of (country : string) : jsstring :=
  flat_map (fun c => [55356; 56806 + (c - 65)]) (js country).

Definition LANGUAGES : list Language :=
  [ mkLanguage (js "auto") (js "Detect Language") [55356; 57104];
    mkLanguage (js "en") (js "English") (flag_of "US");
    mkLanguage (js "hi") (js "Hindi") (flag_of "IN");
    mkLanguage (js "bn") (js "Bengali") (flag_of "IN");
    mkLanguage (js "te") (js "Telugu") (flag_of "IN");
    mkLanguage (js "mr") (js "Marathi") (flag_of "IN");
    mkLanguage (js "ta") (js "Tamil") (flag_of "IN");
    mkLanguage (js "gu") (js "Gujarati") (flag_of "IN");
    mkLanguage (js "kn") (js "Kannada") (flag_of "IN");
    mkLanguage (js "ml") (js "Malayalam") (flag_of "IN");
    mkLanguage (js "pa") (js "Punjabi") (flag_of "IN");
    mkLanguage (js "es") (js "Spanish") (flag_of "ES");
    mkLanguage (js "fr") (js "French") (flag_of "FR");
    mkLanguage (js "de") (js "German") (flag_of "DE");
    mkLanguage (js "it") (js "Italian") (flag_of "IT");
    mkLanguage (js "pt") (js "Portuguese") (flag_of "PT");
    mkLanguage (js "zh") (js "Chinese") (flag_of "CN");
    mkLanguage (js "ja") (js "Japanese") (flag_of "JP");
    mkLanguage (js "ko") (js "Korean") (flag_of "KR");
    mkLanguage (js "ru") (js "Russian") (flag_of "RU");
    mkLanguage (js "ar") (js "Arabic") (flag_of "SA");
    mkLanguage (js "tr") (js "Turkish") (flag_of "TR");
    mkLanguage (js "vi") (js "Vietnamese") (flag_of "VN");
    mkLanguage (js "th") (js "Thai") (flag_of "TH");
    mkLanguage (js "nl") (js "Dutch") (flag_of "NL");
    mkLanguage (js "pl") (js "Polish") (flag_of "PL");
    mkLanguage (js "uk") (js "Ukrainian") (flag_of "UA") ].

(** *** [geminiService] *)

Definition getLanguageName (c : jsstring) : jsstring :=
  match List.find (fun l => jseq (code l) c) LANGUAGES with
  | Some lang => name lang
  | None => c
  end.

(** A thrown value, as the catch blocks read it: [error?.status] and
    [err?.message]. *)
Record JsError : Type := mkError {
  errStatus : option Z;
  errMessage : jsstring
}.

(** [new Error(message)] *)
Definition Error (message : string) : JsError := mkError None (js message).

Inductive Outcome (A : Type) : Type :=
| Returned (a : A)
| Raised (e : JsError).
Arguments Returned {A} a.
Arguments Raised {A} e.

(** [catch (error) { if (error?.status === 503) throw new Error(m); throw error; }] *)
Definition rethrow (m : string) (error : JsError) : JsError :=
  match errStatus error with
  | Some s => if s =? 503 then Error m else error
  | None => error
  end.

Definition OFFLINE_DICT : list (jsstring * list (jsstring * jsstring)) :=
  [ (js "hello",
      [ (js "es", js "Hola|||Oh-lah");
        (js "fr", js "Bonjour|||Bon-zhoor");
        (js "de", js "Guten Tag|||Goo-ten Tahg");
        (js "it", js "Ciao|||Chow");
        (js "ja", [12371; 12435; 12395; 12385; 12399] ++ js "|||Kon-nee-chee-wah");
        (js "zh", [20320; 22909] ++ js "|||Nee how");
        (js "hi", [2344; 2350; 2360; 2381; 2340; 2375] ++ js "|||Namaste") ]);
    (js "thank you",
      [ (js "es", js "Gracias|||Grah-see-ahs");
        (js "fr", js "Merci|||Mair-see");
        (js "de", js "Danke|||Dahn-keh");
        (js "it", js "Grazie|||Graht-zee-eh") ]) ].

(** An own property of an object literal. *)
Definition own {V} (key : jsstring) (object : list (jsstring * V)) : option V :=
  option_map snd (List.find (fun p => jseq (fst p) key) object).

(** [a || b] and [if (x)] on values that are strings or missing. *)
Definition truthy_value (v : option jsstring) : option jsstring :=
  match v with
  | Some s => if truthy s then Some s else None
  | None => None
  end.

Definition or_else (a b : option jsstring) : option jsstring :=
  match truthy_value a with
  | Some s => Some s
  | None => b
  end.

Section Platform.

(** [String.prototype.toLowerCase], which follows the Unicode tables. *)
Variable toLowerCase : jsstring -> jsstring.

(** What [OFFLINE_DICT[k]?.[t]] finds through [Object.prototype] when the
    dictionary has no own entry: for ordinary keys nothing. *)
Variable inherited : jsstring -> jsstring -> option jsstring.

(** What [localStorage.setItem] throws when it refuses a write. *)
Variable setItem_throws :
  gmap (list Z) (list Z) -> jsstring -> jsstring -> option JsError.

(** [OFFLINE_DICT[normalizedText]?.[targetLang]] *)
Definition offline_entry (normalizedText targetLang : jsstring) : option jsstring :=
  match own normalizedText OFFLINE_DICT with
  | Some entry =>
      match own targetLang entry with
      | Some v => Some v
      | None => inherited normalizedText targetLang
      end
  | None => inherited normalizedText targetLang
  end.

(** [`trans_${target}_${text.toLowerCase().trim()}`] *)
Definition cacheKey (text target : jsstring) : jsstring :=
  js "trans_" ++ target ++ js "_" ++ trim (toLowerCase text).

Definition getCachedTranslation (localStorage : gmap (list Z) (list Z))
    (text target : jsstring) : option jsstring :=
  localStorage !! cacheKey text target.

Definition setCachedTranslation (localStorage : gmap (list Z) (list Z))
    (text target result : jsstring) : Outcome (gmap (list Z) (list Z)) :=
  let key := cacheKey text target in
  match setItem_throws localStorage key result with
  | Some error => Raised error
  | None => Returned (<[key := result]> localStorage)
  end.

(** What the streaming call gives: the [text] of each chunk, then the
    error that ends the stream, if one does. *)
Record Stream : Type := mkStream {
  chunks : list (option jsstring);
  failure : option JsError
}.

(** What a call of [translateTextStream] does: the chunks it hands to
    [onChunk] in order, the storage it leaves, and how it ends. *)
Record Run : Type := mkRun {
  delivered : list jsstring;
  storage : gmap (list Z) (list Z);
  result : Outcome unit
}.

(** The [for await] loop: the result so far and the chunks handed on. *)
Fixpoint consume (cs : list (option jsstring)) (fullResult : jsstring)
    (out : list jsstring) : jsstring * list jsstring :=
  match cs with
  | [] => (fullResult, out)
  | textChunk :: rest =>
      match truthy_value textChunk with
      | Some t => consume rest (fullResult ++ t) (out ++ [t])
      | None => consume rest fullResult out
      end
  end.

Definition translatePrompt (text sourceLang targetLang : jsstring) : jsstring :=
  js "Translate precisely from " ++ getLanguageName sourceLang
    ++ js " to " ++ getLanguageName targetLang ++ js "." ++ [10]
    ++ js "After the translation, add exactly the delimiter '|||' and then "
    ++ js "provide a clear English phonetic pronunciation."
    ++ [10; 10] ++ js "Format: [Translated Text]|||[Phonetic Guide]"
    ++ [10; 10] ++ js "Text: " ++ text.

(** What a call finds without the network: [cached] of lines 55-57, as
    [if (cached)] reads it. *)
Definition known (localStorage : gmap (list Z) (list Z))
    (text targetLang : jsstring) : option jsstring :=
  let normalizedText := trim (toLowerCase text) in
  truthy_value
    (or_else (getCachedTranslation localStorage normalizedText targetLang)
       (offline_entry normalizedText targetLang)).

Definition unavailable : string :=
  "AI service is temporarily unavailable. Try again later.".

(** [translateTextStream]; [online] is [navigator.onLine] and [server] the
    streaming call on the prompt. The callback is taken not to throw. *)
Definition translateTextStream (localStorage : gmap (list Z) (list Z))
    (online : bool) (server : jsstring -> Stream)
    (text sourceLang targetLang : jsstring) : Run :=
  let normalizedText := trim (toLowerCase text) in
  let cached :=
    or_else (getCachedTranslation localStorage normalizedText targetLang)
      (offline_entry normalizedText targetLang) in
  match truthy_value cached with
  | Some c => mkRun [c] localStorage (Returned tt)
  | None =>
      if negb online then
        mkRun [] localStorage (Raised (Error "Offline: Phrase not in cache"))
      else
        let response := server (translatePrompt text sourceLang targetLang) in
        let '(fullResult, out) := consume (chunks response) [] [] in
        match failure response with
        | Some error => mkRun out localStorage (Raised (rethrow unavailable error))
        | None =>
            if truthy fullResult then
              match setCachedTranslation localStorage normalizedText targetLang
                      fullResult with
              | Returned stored => mkRun out stored (Returned tt)
              | Raised error =>
                  mkRun out localStorage (Raised (rethrow unavailable error))
              end
            else mkRun out localStorage (Returned tt)
        end
  end.

End Platform.

(** What [generateSpeech] does to the audio side, in order. *)
Inductive Effect : Type :=
| NewAudioContext
| Start (b : AudioBuffer)
| Speak (text lang : jsstring).

(** [utterance.lang = langCode === "auto" ? "en" : langCode], then
    [speechSynthesis.speak]. *)
Definition speak (text langCode : jsstring) : list Effect :=
  [Speak text (if jseq langCode (js "auto") then js "en" else langCode)].

Definition speechPrompt (text langCode : jsstring) : jsstring :=
  js "Speak clearly in " ++ getLanguageName langCode ++ js ": " ++ text.

(** [generateSpeech]; [tts] is the model call on the prompt, giving
    [candidates?.[0]?.content?.parts?.[0]?.inlineData?.data]. *)
Definition generateSpeech (online : bool)
    (tts : jsstring -> Outcome (option jsstring))
    (text langCode : jsstring) : list Effect :=
  if negb online then speak text langCode
  else
    match tts (speechPrompt text langCode) with
    | Returned base64Audio =>
        match truthy_value base64Audio with
        | Some audio =>
            match decodeBase64Audio audio with
            | Ok bytes =>
                match decodeAudioToBuffer bytes with
                | Ok b => [NewAudioContext; Start b]
                | Throw _ => NewAudioContext :: speak text langCode
                end
            | Throw _ => NewAudioContext :: speak text langCode
            end
        | None => speak text langCode
        end
    | Raised _ => speak text langCode
    end.

Definition imagePrompt (targetLang : jsstring) : jsstring :=
  js "Translate all visible text in this image into "
    ++ getLanguageName targetLang ++ js ". Only return translation.".

(** [translateImage]; [vision] is the model call on the image and the
    prompt, giving [response.text]. *)
Definition translateImage (online : bool)
    (vision : jsstring -> jsstring -> Outcome (option jsstring))
    (base64Image targetLang : jsstring) : Outcome jsstring :=
  if negb online then
    Raised (Error "Vision translation requires internet connection")
  else
    match vision base64Image (imagePrompt targetLang) with
    | Returned text =>
        Returned (match truthy_value text with
                  | Some t => t
                  | None => js "No text detected."
                  end)
    | Raised error =>
        Raised (rethrow "Vision AI service unavailable. Try again later." error)
    end.

(** Which effects can be heard. *)
Definition audible (e : Effect) : bool :=
  match e with
  | NewAudioContext => false
  | _ => true
  end.

(** A platform to run the service on: lower-casing of the ASCII letters,
    no inherited member, a storage that never refuses; a server that
    answers [Good evening] in four chunks, and one that answers nothing. *)
Definition ascii_lower (s : jsstring) : jsstring :=
  map (fun c => if (65 <=? c) && (c <=? 90) then c + 32 else c) s.
Definition no_member : jsstring -> jsstring -> option jsstring := fun _ _ => None.
Definition roomy
    : gmap (list Z) (list Z) -> jsstring -> jsstring -> option JsError :=
  fun _ _ _ => None.
Definition evening_server (prompt : jsstring) : Stream :=
  mkStream [Some (js "Bon"); None; Some []; Some (js "soir|||Bon-swar")] None.
Definition silent_server (prompt : jsstring) : Stream := mkStream [] None.

(** A vision model that is overloaded. *)
Definition failing_vision : jsstring -> jsstring -> Outcome (option jsstring) :=
  fun _ _ => Raised (mkError (Some 503) (js "overloaded")).

End Service.

(** ** The text mode of [App], which calls the service *)

Module App.
Import Service.

(** [s.startsWith(pat)] *)
Fixpoint starts_with (pat s : jsstring) : bool :=
  match pat, s with
  | [], _ => true
  | p :: pat', c :: s' => (p =? c) && starts_with pat' s'
  | _ :: _, [] => false
  end.

(** [s.includes(pat)] *)
Fixpoint includes (pat s : jsstring) : bool :=
  starts_with pat s
  || match s with
     | [] => false
     | _ :: s' => includes pat s'
     end.

(** [s.split(sep)] for a separator that is not empty: [piece] is the
    piece being read and [skip] what is left of a separator just met. *)
Fixpoint split_from (sep : jsstring) (skip : nat) (piece s : jsstring)
    : list jsstring :=
  match s with
  | [] => [piece]
  | c :: s' =>
      match skip with
      | S k => split_from sep k piece s'
      | O =>
          if starts_with sep s
          then piece :: split_from sep (length sep - 1) [] s'
          else split_from sep 0 (piece ++ [c]) s'
      end
  end.

Definition split (sep s : jsstring) : list jsstring := split_from sep 0 [] s.

(** The part of the React state that the translation effect writes. *)
Record Display : Type := mkDisplay {
  translatedText : jsstring;
  pronunciation : jsstring;
  isTranslating : bool;
  errorMsg : option jsstring
}.

Definition setTranslatedText (t : jsstring) (d : Display) : Display :=
  mkDisplay t (pronunciation d) (isTranslating d) (errorMsg d).
Definition setPronunciation (p : jsstring) (d : Display) : Display :=
  mkDisplay (translatedText d) p (isTranslating d) (errorMsg d).
Definition setIsTranslating (b : bool) (d : Display) : Display :=
  mkDisplay (translatedText d) (pronunciation d) b (errorMsg d).
Definition setErrorMsg (e : option jsstring) (d : Display) : Display :=
  mkDisplay (translatedText d) (pronunciation d) (isTranslating d) e.

(** The callback given to [translateTextStream], lines 75-84; the state
    is [fullResponse] and the display. *)
Definition onChunk (st : jsstring * Display) (chunk : jsstring)
    : jsstring * Display :=
  let fullResponse := fst st ++ chunk in
  let d := snd st in
  if includes (js "|||") fullResponse then
    let pieces := split (js "|||") fullResponse in
    let translation := hd [] pieces in
    let d' := setTranslatedText (trim translation) d in
    match tl pieces with
    | phonetic :: _ =>
        (fullResponse,
         if truthy phonetic then setPronunciation (trim phonetic) d' else d')
    | [] => (fullResponse, d')
    end
  else (fullResponse, setTranslatedText (trim fullResponse) d).

(** The catch of the effect, lines 85-94. *)
Definition explain (online : bool) (err : JsError) : jsstring :=
  let errMsg := errMessage err in
  if negb online then js "Connect to translate new phrases"
  else if includes (js "API key") errMsg || includes (js "403") errMsg
          || includes (js "401") errMsg
       then js "API Config Error. Please check environment."
       else js "Service unavailable. Try again.".

Section Platform.

Variable toLowerCase : jsstring -> jsstring.
Variable inherited : jsstring -> jsstring -> option jsstring.
Variable setItem_throws :
  gmap (list Z) (list Z) -> jsstring -> jsstring -> option JsError.

(** The body of the timer of the translation effect, lines 69-98;
    [navigator.onLine] is taken not to change while it runs. *)
Definition translateNow (localStorage : gmap (list Z) (list Z)) (online : bool)
    (server : jsstring -> Stream) (sourceText sourceLang targetLang : jsstring)
    (d : Display) : Display * gmap (list Z) (list Z) :=
  let d1 := setErrorMsg None (setIsTranslating true d) in
  let r := translateTextStream toLowerCase inherited setItem_throws
             localStorage online server sourceText sourceLang targetLang in
  let d2 := snd (fold_left onChunk (delivered r) ([], d1)) in
  let d3 := match result r with
            | Returned _ => d2
            | Raised err => setErrorMsg (Some (explain online err)) d2
            end in
  (setIsTranslating false d3, storage r).

End Platform.

(** The delimiter of an answer, and its code unit. *)
Definition bars : jsstring := js "|||".
Definition bar : Z := 124.

End App.

Import Service App.

(** * Facts *)

(** ** Base64 *)

Ltac zdm := Z.div_mod_to_equations; lia.
Lemma list_ind3 {A} (P : list A -> Prop) :
  P [] -> (forall a, P [a]) -> (forall a b, P [a; b]) ->
  (forall a b c l, P l -> P (a :: b :: c :: l)) ->
  forall l, P l.
Proof.
  intros H0 H1 H2 H3.
  assert (H : forall l, P l /\ (forall a, P (a :: l)) /\ (forall a b, P (a :: b :: l))).
  { induction l as [|x l (IHa & IHb & IHc)]; [by auto|].
    split; [apply IHb|]. split; [intros a; apply IHc|]. 
    intros a b. by apply H3. }
  intros l. apply H.
Qed.

Lemma b64_index_char i : sextet i -> b64_index (b64_char i) = Some i.
Proof.
  unfold sextet, b64_char. intros Hi.
  destruct (i <? 26) eqn:?;
    [| destruct (i <? 52) eqn:?;
       [| destruct (i <? 62) eqn:?; [| destruct (i =? 62) eqn:?]]];
  unfold b64_index;
  repeat match goal with
         | |- context [ if ?b then _ else _ ] => destruct b eqn:?
         end; try (f_equal; lia); lia.
Qed.

Lemma b64_char_alphabet i :
  sextet i -> b64_char i <> pad_char /\ is_ascii_whitespace (b64_char i) = false.
Proof.
  unfold sextet, b64_char, pad_char, is_ascii_whitespace. intros Hi.
  destruct (i <? 26) eqn:?;
    [| destruct (i <? 52) eqn:?;
       [| destruct (i <? 62) eqn:?; [| destruct (i =? 62) eqn:?]]];
  split; try lia; repeat (apply orb_false_intro); lia.
Qed.


Ltac split3 H :=
  let Ha := fresh "Ha" in let Hb := fresh "Hb" in let Hc := fresh "Hc" in
  first [ apply Forall_cons_1 in H as [Ha H];
          first [ apply Forall_cons_1 in H as [Hb H];
                  first [ apply Forall_cons_1 in H as [Hc H] | idtac ]
                | idtac ]
        | idtac ].

Lemma sextets_range bs : Forall octet bs -> Forall sextet (sextets bs).
Proof.
  unfold octet, sextet.
  induction bs as [|a|a b|a b c l IH] using list_ind3; intros H; simpl;
    split3 H; repeat (apply List.Forall_cons; [zdm|]); auto using List.Forall_nil.
Qed.

Lemma unsextets_sextets bs : Forall octet bs -> unsextets (sextets bs) = bs.
Proof.
  unfold octet.
  induction bs as [|a|a b|a b c l IH] using list_ind3; intros H; simpl;
    split3 H; repeat (f_equal; try zdm); auto.
Qed.

Lemma indices_chars ss : Forall sextet ss -> indices (map b64_char ss) = Some ss.
Proof.
  induction 1 as [|s ss Hs _ IH]; simpl; [done|].
  by rewrite b64_index_char, IH.
Qed.

Lemma filter_all {A} (f : A -> bool) l :
  Forall (fun x => f x = true) l -> List.filter f l = l.
Proof.
  induction 1 as [|x l Hx _ IH]; simpl; [done|]. by rewrite Hx, IH.
Qed.

Lemma padding_cases n :
  padding n = [] \/ padding n = [pad_char] \/ padding n = [pad_char; pad_char].
Proof.
  unfold padding. destruct (n mod 3)%nat as [|[|[|?]]]; auto.
Qed.

(** The encoded length is a multiple of four, and the sextets alone never
    number one more than a multiple of four. *)
Lemma sextets_length bs :
  ((length (sextets bs) + length (padding (length bs))) mod 4 = 0
   /\ length (sextets bs) mod 4 <> 1)%nat.
Proof.
  induction bs as [|a|a b|a b c l [IH1 IH2]] using list_ind3;
    try (cbn; split; lia).
  assert (Hp : padding (length (a :: b :: c :: l)) = padding (length l)).
  { unfold padding. cbn [length].
    replace (S (S (S (length l)))) with (length l + 1 * 3)%nat by lia.
    by rewrite Nat.Div0.mod_add. }
  rewrite Hp. cbn [sextets length].
  split.
  - replace (S (S (S (S (length (sextets l))))) + length (padding (length l)))%nat
      with (length (sextets l) + length (padding (length l)) + 1 * 4)%nat by lia.
    by rewrite Nat.Div0.mod_add.
  - replace (S (S (S (S (length (sextets l))))))
      with (length (sextets l) + 1 * 4)%nat by lia.
    by rewrite Nat.Div0.mod_add.
Qed.

Lemma strip_padding_chars ss pad :
  Forall sextet ss ->
  pad = [] \/ ((pad = [pad_char] \/ pad = [pad_char; pad_char])
              /\ (length (map b64_char ss ++ pad) mod 4 = 0)%nat) ->
  strip_padding (map b64_char ss ++ pad) = map b64_char ss.
Proof.
  intros Hss Hpad. unfold strip_padding.
  assert (Hlast : forall c r, rev (map b64_char ss) = c :: r -> (c =? pad_char) = false).
  { intros c r Hr. apply Z.eqb_neq.
    assert (Hin : In c (map b64_char ss)).
    { apply in_rev. rewrite Hr. by left. }
    apply in_map_iff in Hin as (s & <- & Hs).
    eapply b64_char_alphabet, Forall_forall; eauto. by apply list_elem_of_In. }
  destruct Hpad as [-> | [[-> | ->] Hlen]].
  - rewrite app_nil_r. destruct (_ =? _)%nat; [|done].
    destruct (rev (map b64_char ss)) as [|c1 [|c2 r]] eqn:Hr; [done| |];
      by rewrite (Hlast _ _ eq_refl).
  - rewrite Hlen. cbn [Nat.eqb]. rewrite rev_app_distr. cbn [rev app].
    destruct (rev (map b64_char ss)) as [|c2 r] eqn:Hr.
    + cbn. apply (f_equal (@rev Z)) in Hr. by rewrite rev_involutive in Hr.
    + cbn. rewrite (Hlast _ _ eq_refl).
      change (rev (c2 :: r) = map b64_char ss). rewrite <- Hr. apply rev_involutive.
  - rewrite Hlen. cbn [Nat.eqb]. rewrite rev_app_distr. cbn.
    apply rev_involutive.
Qed.

(** Decoding undoes encoding on octets. *)
Lemma atob_base64_encode bs :
  Forall octet bs -> atob (base64_encode bs) = Ok bs.
Proof.
  intros Hbs. unfold atob, base64_encode.
  pose proof (sextets_range bs Hbs) as Hss.
  pose proof (sextets_length bs) as [Hlen H1].
  rewrite filter_all.
  2:{ apply Forall_app. split.
      - apply Forall_forall. intros c Hc. apply list_elem_of_In, in_map_iff in Hc as (s & <- & Hs).
        apply negb_true_iff. eapply b64_char_alphabet, Forall_forall; eauto.
        by apply list_elem_of_In.
      - destruct (padding_cases (length bs)) as [-> | [-> | ->]];
          repeat constructor. }
  rewrite strip_padding_chars; [|done|].
  2:{ destruct (padding_cases (length bs)) as [-> | [E | E]]; [by left| |];
      right; (split; [by rewrite E; auto|]);
      by rewrite length_app, length_map. }
  rewrite length_map.
  destruct (_ =? 1)%nat eqn:E; [apply Nat.eqb_eq in E; done|].
  by rewrite indices_chars, unsextets_sextets.
Qed.

(** ** The PCM codec *)

Lemma clamp_range x : unit_sample (clamp x).
Proof.
  unfold clamp, unit_sample. split; [apply Q.le_max_l|].
  apply Q.max_lub; [lra | apply Q.le_min_l].
Qed.

Lemma clamp_unit x : unit_sample x -> (clamp x == x)%Q.
Proof.
  unfold clamp, unit_sample. intros [Hlo Hhi].
  rewrite Q.min_r by done. by apply Q.max_r.
Qed.

Lemma clamp_clamp x : clamp (clamp x) = clamp x.
Proof.
  unfold clamp, Qmax, Qmin, GenericMinMax.gmax, GenericMinMax.gmin.
  destruct (1 ?= x)%Q eqn:E1; try reflexivity;
    destruct (-1 ?= x)%Q eqn:E2; try reflexivity;
    rewrite ?E1, ?E2; reflexivity.
Qed.

Lemma trunc_nonneg q :
  (0 <= q)%Q -> (inject_Z (trunc q) <= q < inject_Z (trunc q) + 1)%Q.
Proof.
  intros Hq. unfold trunc.
  destruct (q ?= 0)%Q eqn:E; [| apply Qlt_alt in E; lra |];
    pose proof (Qfloor_le q); pose proof (Qlt_floor q) as Hf;
    rewrite inject_Z_plus in Hf; change (inject_Z 1) with 1%Q in Hf; lra.
Qed.

Lemma trunc_neg q :
  (q < 0)%Q -> (q <= inject_Z (trunc q) < q + 1)%Q.
Proof.
  intros Hq. unfold trunc.
  assert (E : (q ?= 0)%Q = Lt) by (by apply Qlt_alt). rewrite E.
  pose proof (Qfloor_le (- q)); pose proof (Qlt_floor (- q)) as Hf.
  rewrite inject_Z_plus in Hf; change (inject_Z 1) with 1%Q in Hf.
  rewrite inject_Z_opp. lra.
Qed.

(** What one in-range sample is stored as. *)
Lemma quantum_spec s :
  unit_sample s ->
  int16 (trunc (scale s))
  /\ ((s < 0)%Q -> (s * 32768 <= inject_Z (trunc (scale s)) < s * 32768 + 1)%Q)
  /\ ((0 <= s)%Q -> (inject_Z (trunc (scale s)) <= s * 32767 < inject_Z (trunc (scale s)) + 1)%Q).
Proof.
  unfold unit_sample, int16. intros [Hlo Hhi].
  assert (Hz : forall a b : Z, (inject_Z a <= inject_Z b)%Q -> a <= b)
    by (intros a b; by rewrite <- Zle_Qle).
  assert (Hz' : forall a b : Z, (inject_Z a < inject_Z b + 1)%Q -> a <= b).
  { intros a b Hab. apply Z.lt_succ_r. rewrite Zlt_Qlt.
    unfold Z.succ. rewrite inject_Z_plus. exact Hab. }
  destruct (Qlt_le_dec s 0) as [Hs | Hs].
  - assert (E : scale s = (s * 32768)%Q).
    { unfold scale. assert (E : (s ?= 0)%Q = Lt) by (by apply Qlt_alt). by rewrite E. }
    rewrite E. pose proof (trunc_neg (s * 32768)%Q ltac:(lra)) as [H1 H2].
    split; [split|split; [done | lra]].
    + apply Hz. change (inject_Z (-32768)) with (-32768)%Q. lra.
    + apply Hz'. change (inject_Z 32767) with 32767%Q. lra.
  - assert (E : scale s = (s * 32767)%Q).
    { unfold scale. destruct (s ?= 0)%Q eqn:E; [done| |done].
      apply Qlt_alt in E. lra. }
    rewrite E. pose proof (trunc_nonneg (s * 32767)%Q ltac:(lra)) as [H1 H2].
    split; [split|split; [lra | done]].
    + apply Hz'. change (inject_Z (-32768)) with (-32768)%Q. lra.
    + apply Hz. change (inject_Z 32767) with 32767%Q. lra.
Qed.

Lemma wrap16_int16 v : int16 v -> wrap16 v = v.
Proof. unfold int16, wrap16. intros. zdm. Qed.

Lemma wrap16_range z : int16 (wrap16 z).
Proof. unfold int16, wrap16. zdm. Qed.

Lemma toInt16_clamped x : toInt16 (scale (clamp x)) = trunc (scale (clamp x)).
Proof. apply wrap16_int16, quantum_spec, clamp_range. Qed.

Lemma quantize_int16 data : Forall int16 (quantize data).
Proof.
  unfold quantize. apply Forall_map, Forall_forall. intros x _. apply wrap16_range.
Qed.

Lemma int16_bytes_octets v : Forall octet (int16_bytes v).
Proof.
  unfold int16_bytes, octet.
  repeat (apply List.Forall_cons; [zdm|]). apply List.Forall_nil.
Qed.

Lemma bytes_of_int16s_octets vs : Forall octet (bytes_of_int16s vs).
Proof.
  unfold bytes_of_int16s. induction vs as [|v vs IH]; simpl; [constructor|].
  pose proof (int16_bytes_octets v) as Hv. unfold int16_bytes in Hv.
  inversion_clear Hv as [|? ? H1 Hv']. inversion_clear Hv' as [|? ? H2 _].
  by repeat (apply List.Forall_cons; [done|]).
Qed.

Lemma btoa_octets bs : Forall octet bs -> btoa bs = Ok (base64_encode bs).
Proof.
  intros H. unfold btoa.
  replace (forallb _ bs) with true; [done|].
  symmetry. apply forallb_forall. intros c Hc.
  assert (octet c) as Hoc by (eapply Forall_forall; eauto; by apply list_elem_of_In).
  unfold octet in Hoc. lia.
Qed.

Lemma int16s_of_bytes_of_int16s vs :
  Forall int16 vs -> int16s_of_bytes (bytes_of_int16s vs) = vs.
Proof.
  unfold int16.
  induction 1 as [|v vs Hv _ IH]; simpl; [done|].
  rewrite IH. f_equal. unfold wrap16. zdm.
Qed.

Lemma bytes_of_int16s_length vs :
  length (bytes_of_int16s vs) = (2 * length vs)%nat.
Proof. induction vs as [|v vs IH]; simpl in *; lia. Qed.

Lemma toUint8_octets bs : Forall octet bs -> map toUint8 bs = bs.
Proof.
  unfold octet, toUint8.
  induction 1 as [|b bs Hb _ IH]; simpl; [done|]. rewrite IH. f_equal. zdm.
Qed.

(** The encoder never fails, whatever the samples. *)
Lemma encodeAudioChunk_ok data :
  encodeAudioChunk data = Ok (base64_encode (bytes_of_int16s (quantize data))).
Proof. unfold encodeAudioChunk. apply btoa_octets, bytes_of_int16s_octets. Qed.

(** Decoding an encoded chunk gives back the stored integers over 32768. *)
Lemma roundtrip_eq x :
  x <> [] ->
  roundtrip x =
    Ok (mkAudioBuffer (map (fun v => (inject_Z v / 32768)%Q) (quantize x)) 24000).
Proof.
  intros Hx. unfold roundtrip. rewrite encodeAudioChunk_ok. cbn [res_bind].
  unfold decodeBase64Audio.
  rewrite atob_base64_encode by apply bytes_of_int16s_octets. cbn [res_bind].
  rewrite toUint8_octets by apply bytes_of_int16s_octets.
  unfold decodeAudioToBuffer, asInt16Array.
  rewrite bytes_of_int16s_length.
  replace (Nat.even (2 * length (quantize x))) with true
    by (symmetry; apply Nat.even_spec; by exists (length (quantize x))).
  cbn [res_bind].
  rewrite int16s_of_bytes_of_int16s by apply quantize_int16.
  destruct x as [|x0 x]; [done|]. reflexivity.
Qed.

Lemma scale_dec s : scale s = (if Qlt_le_dec s 0 then s * 32768 else s * 32767)%Q.
Proof.
  unfold scale. destruct (Qlt_le_dec s 0) as [H|H].
  - assert (E : (s ?= 0)%Q = Lt) by (by apply Qlt_alt). by rewrite E.
  - destruct (s ?= 0)%Q eqn:E; [done| |done]. apply Qlt_alt in E. lra.
Qed.

Lemma trunc_comp q q' : (q == q')%Q -> trunc q = trunc q'.
Proof.
  intros H. unfold trunc.
  assert (E : (q ?= 0)%Q = (q' ?= 0)%Q) by (by rewrite H).
  rewrite E. destruct (q' ?= 0)%Q; by rewrite H.
Qed.

Lemma trunc_mono_int q (z : Z) :
  ((inject_Z z <= q)%Q -> z <= trunc q) /\ ((q <= inject_Z z)%Q -> trunc q <= z).
Proof.
  assert (Hz : forall a b : Z, (inject_Z a < inject_Z b + 1)%Q -> a <= b).
  { intros a b Hab. apply Z.lt_succ_r. rewrite Zlt_Qlt.
    unfold Z.succ. rewrite inject_Z_plus. exact Hab. }
  destruct (Qlt_le_dec q 0) as [Hq | Hq].
  - pose proof (trunc_neg q Hq) as [H1 H2].
    split; intros H; [rewrite Zle_Qle; lra | apply Hz; lra].
  - pose proof (trunc_nonneg q Hq) as [H1 H2].
    split; intros H; [apply Hz; lra | rewrite Zle_Qle; lra].
Qed.

(** Clamping the sample first or the scaled integer last is the same. *)
Lemma spec_sample_quantum x : toInt16 (scale (clamp x)) = spec_sample x.
Proof.
  rewrite toInt16_clamped. unfold spec_sample. rewrite <- scale_dec.
  destruct (Qlt_le_dec x (-1)) as [Hlo | Hlo];
    [| destruct (Qlt_le_dec 1 x) as [Hhi | Hhi]].
  - assert (E : (clamp x == -1)%Q).
    { unfold clamp. rewrite Q.min_r by lra. apply Q.max_l. lra. }
    rewrite (trunc_comp _ (-32768)%Q).
    2:{ rewrite !scale_dec. destruct (Qlt_le_dec (clamp x) 0); lra. }
    assert (trunc (scale x) <= -32768).
    { apply (trunc_mono_int _ (-32768)). change (inject_Z (-32768)) with (-32768)%Q.
      rewrite scale_dec. destruct (Qlt_le_dec x 0); lra. }
    change (trunc (-32768)%Q) with (-32768). unfold clamp16. lia.
  - assert (E : (clamp x == 1)%Q).
    { unfold clamp. rewrite Q.min_l by lra. apply Q.max_r. lra. }
    rewrite (trunc_comp _ 32767%Q).
    2:{ rewrite !scale_dec. destruct (Qlt_le_dec (clamp x) 0); lra. }
    assert (32767 <= trunc (scale x)).
    { apply (trunc_mono_int _ 32767). change (inject_Z 32767) with 32767%Q.
      rewrite scale_dec. destruct (Qlt_le_dec x 0); lra. }
    change (trunc 32767%Q) with 32767. unfold clamp16. lia.
  - assert (Hx : unit_sample x) by (split; lra).
    rewrite (trunc_comp _ (scale x)).
    2:{ pose proof (clamp_unit x Hx) as E. rewrite !scale_dec.
        destruct (Qlt_le_dec (clamp x) 0), (Qlt_le_dec x 0); lra. }
    destruct (quantum_spec x Hx) as [Hr _]. unfold int16 in Hr.
    unfold clamp16. lia.
Qed.

Lemma little_endian_bytes v : little_endian v = int16_bytes v.
Proof.
  unfold little_endian, int16_bytes.
  change 255 with (Z.ones 8). rewrite !Z.land_ones by lia.
  rewrite Z.shiftr_div_pow2 by lia. reflexivity.
Qed.

Lemma bytes_of_int16s_spec x :
  bytes_of_int16s (quantize x) = concat (map little_endian (map spec_sample x)).
Proof.
  unfold bytes_of_int16s, quantize.
  induction x as [|x0 x IH]; [done|].
  cbn [map flat_map concat]. cbv zeta.
  by rewrite IH, spec_sample_quantum, little_endian_bytes.
Qed.

(** The encoder computes what the specification describes, on every
    input. *)
Lemma encodeAudioChunk_spec x : encodeAudioChunk x = Ok (encode_spec x).
Proof.
  rewrite encodeAudioChunk_ok. unfold encode_spec. by rewrite bytes_of_int16s_spec.
Qed.


(** The code's clamp is the claim's. *)
Lemma clamp_saturate x : (clamp x == saturate x)%Q.
Proof.
  unfold clamp, saturate.
  destruct (Qlt_le_dec x (-1)) as [Hlo | Hlo];
    [| destruct (Qlt_le_dec 1 x) as [Hhi | Hhi]].
  - rewrite Q.min_r by lra. apply Q.max_l. lra.
  - rewrite Q.min_l by lra. apply Q.max_r. lra.
  - rewrite Q.min_r by lra. by apply Q.max_r.
Qed.

Lemma saturate_unit x : unit_sample (saturate x).
Proof.
  unfold unit_sample, saturate.
  destruct (Qlt_le_dec x (-1)); [lra|]. destruct (Qlt_le_dec 1 x); lra.
Qed.

Lemma scale_comp a b : (a == b)%Q -> (scale a == scale b)%Q.
Proof.
  intros H. rewrite !scale_dec.
  destruct (Qlt_le_dec a 0), (Qlt_le_dec b 0); try lra; by rewrite H.
Qed.

(** What the loop stores for one sample, in terms of the claim's clamp. *)
Lemma stored_sample xi :
  toInt16 (scale (clamp xi))
    = trunc (if Qlt_le_dec (saturate xi) 0
             then saturate xi * 32768 else saturate xi * 32767)%Q.
Proof.
  rewrite toInt16_clamped, <- scale_dec.
  apply trunc_comp, scale_comp, clamp_saturate.
Qed.

(** C10. The encoder is total on every finite input, not only on the
    samples of [-1, 1]. Each sample is clamped before it is scaled: below
    -1 it counts as -1, above 1 as 1, in between as itself. So encoding
    [x] is encoding the clamped [x], which is what the specification's
    encoder gives on the clamped [x]; it never fails; and every stored
    integer is the integer part of the scaled clamped sample, inside the
    signed 16-bit range, -32768 for a sample of -1 or less and 32767 for
    a sample of 1 or more. *)
Theorem encodeAudioChunk_total (x : list Q) :
  encodeAudioChunk x = encodeAudioChunk (map saturate x)
  /\ encodeAudioChunk x = Ok (encode_spec (map saturate x))
  /\ Forall2 (fun xi v =>
        v = trunc (if Qlt_le_dec (saturate xi) 0
                   then saturate xi * 32768 else saturate xi * 32767)%Q
        /\ int16 v
        /\ ((xi <= -1)%Q -> v = -32768)
        /\ ((1 <= xi)%Q -> v = 32767))
       x (quantize x).
Proof.
  assert (H1 : encodeAudioChunk x = encodeAudioChunk (map saturate x)).
  { unfold encodeAudioChunk, quantize. do 2 f_equal.
    rewrite map_map. apply map_ext. intros a. cbv zeta.
    rewrite !toInt16_clamped. apply trunc_comp, scale_comp.
    rewrite (clamp_unit (saturate a)) by apply saturate_unit.
    apply clamp_saturate. }
  split; [exact H1|]. split; [rewrite H1; apply encodeAudioChunk_spec|].
  clear H1. unfold quantize. induction x as [|x0 x IH]; constructor; [|exact IH].
  cbv zeta. split; [apply stored_sample|]. split; [apply wrap16_range|].
  rewrite stored_sample. unfold saturate. split; intros Hx.
  - destruct (Qlt_le_dec x0 (-1)) as [Hlo | Hlo].
    + reflexivity.
    + destruct (Qlt_le_dec 1 x0); [lra|].
      rewrite (trunc_comp _ (-32768)%Q); [reflexivity|].
      destruct (Qlt_le_dec x0 0); lra.
  - destruct (Qlt_le_dec x0 (-1)) as [Hlo | Hlo]; [lra|].
    destruct (Qlt_le_dec 1 x0) as [Hhi | Hhi].
    + reflexivity.
    + rewrite (trunc_comp _ 32767%Q); [reflexivity|].
      destruct (Qlt_le_dec x0 0); lra.
Qed.

(** Samples of 2, -3 and 1/2 are encoded as 1, -1 and 1/2 are, and stored
    as 32767, -32768 and 16383. *)
Lemma encodeAudioChunk_total_witness :
  encodeAudioChunk [2; -3; 1 # 2]%Q = encodeAudioChunk [1; -1; 1 # 2]%Q
  /\ quantize [2; -3; 1 # 2]%Q = [32767; -32768; 16383].
Proof.
  destruct (encodeAudioChunk_total [2; -3; 1 # 2]%Q) as (H1 & _ & H3).
  split; [exact H1|].
  apply Forall2_cons_inv_l in H3 as (v0 & l0 & (_ & _ & _ & H0) & H3 & E0).
  apply Forall2_cons_inv_l in H3 as (v1 & l1 & (_ & _ & H1' & _) & H3 & E1).
  apply Forall2_cons_inv_l in H3 as (v2 & l2 & (H2 & _) & H3 & E2).
  apply Forall2_nil_inv_l in H3.
  rewrite E0, E1, E2, H3, (H0 ltac:(lra)), (H1' ltac:(lra)), H2.
  reflexivity.
Defined.

Lemma map_lookup_Some {A B} (f : A -> B) (l : list A) i a :
  l !! i = Some a -> map f l !! i = Some (f a).
Proof.
  revert i. induction l as [|y l IH]; intros [|i] H; simplify_eq/=; auto.
Qed.

(** The error of one sample through the codec. *)
Lemma sample_error xi :
  unit_sample xi ->
  let yi := (inject_Z (toInt16 (scale (clamp xi))) / 32768)%Q in
  (Qabs (xi - yi) < 2 # 32768)%Q
  /\ ((xi <= 0)%Q -> (Qabs (xi - yi) <= 1 # 32768)%Q).
Proof.
  intros Hx yi. subst yi. rewrite toInt16_clamped.
  pose proof (clamp_unit xi Hx) as E.
  pose proof (clamp_range xi) as Hs.
  destruct (quantum_spec (clamp xi) Hs) as (_ & Hneg & Hpos).
  set (t := inject_Z (trunc (scale (clamp xi)))) in *.
  unfold unit_sample in *.
  assert (Hdiv : (t / 32768 == t * (1 # 32768))%Q) by reflexivity.
  destruct (Qlt_le_dec (clamp xi) 0) as [H | H].
  - specialize (Hneg H). split; [apply Qabs_Qlt_condition | intros _; apply Qabs_Qle_condition];
      rewrite Hdiv; lra.
  - specialize (Hpos H). split; [apply Qabs_Qlt_condition | intros H0; apply Qabs_Qle_condition];
      rewrite Hdiv; lra.
Qed.

(** C3, amended. For every sample sequence [x] with each sample in
    [-1, 1], decoding the encoded form gives at every index a value
    within two quantization steps of the sample, [|x[i] - y[i]| < 2/32768],
    and within one step, [|x[i] - y[i]| <= 1/32768], when the sample is
    not positive; decoding reads the bytes as signed 16-bit PCM and
    divides by 32768. *)
Theorem roundtrip_error (x : list Q) (i : nat) (xi : Q) :
  Forall unit_sample x ->
  x !! i = Some xi ->
  exists b yi,
    roundtrip x = Ok b
    /\ channelData b !! i = Some yi
    /\ (Qabs (xi - yi) < 2 # 32768)%Q
    /\ ((xi <= 0)%Q -> (Qabs (xi - yi) <= 1 # 32768)%Q).
Proof.
  intros Hx Hi.
  assert (Hne : x <> []) by (intros ->; done).
  assert (Hxi : unit_sample xi).
  { eapply Forall_forall; [exact Hx|]. eapply list_elem_of_lookup_2; eauto. }
  eexists _, _. split; [by apply roundtrip_eq|]. cbn [channelData]. split.
  - apply map_lookup_Some. unfold quantize. by apply map_lookup_Some.
  - apply (sample_error xi Hxi).
Qed.

Lemma roundtrip_error_witness :
  exists b yi,
    roundtrip [1 # 2; -1 # 4]%Q = Ok b
    /\ channelData b !! 1%nat = Some yi
    /\ (Qabs ((-1 # 4) - yi) < 2 # 32768)%Q
    /\ ((-1 # 4 <= 0)%Q -> (Qabs ((-1 # 4) - yi) <= 1 # 32768)%Q).
Proof.
  apply (roundtrip_error [1 # 2; -1 # 4]%Q 1 (-1 # 4)%Q); [|reflexivity].
  repeat (apply List.Forall_cons; [unfold unit_sample; lra|]). apply List.Forall_nil.
Defined.

(** C3 as stated asks for one step everywhere. The Float32 sample
    1 - 2^-17 is stored as 32766 and comes back as 32766/32768, which is
    7/131072 away: more than 1/32768. *)
Lemma roundtrip_error_exceeds_one_step :
  Forall unit_sample [131071 # 131072]%Q
  /\ roundtrip [131071 # 131072]%Q = Ok (mkAudioBuffer [32766 # 32768]%Q 24000)
  /\ ~ (Qabs ((131071 # 131072) - (32766 # 32768)) <= 1 # 32768)%Q.
Proof.
  split; [|split].
  - apply List.Forall_cons; [unfold unit_sample; lra | apply List.Forall_nil].
  - vm_compute. reflexivity.
  - vm_compute. intros H. apply H. reflexivity.
Qed.

(** ** The monad and the guarded stop loop *)

(** The facts about the component hold whatever the sums and quotients
    of doubles round to. *)
Section VoiceFacts.

Context {F : Float64}.

Lemma bind_ok {A B} (m : M A) (k : A -> M B) w a w' :
  m w = (Ok a, w') -> (m ≫= k) w = k a w'.
Proof. intros H. unfold mbind, M_bind. by rewrite H. Qed.

Lemma bind_throw {A B} (m : M A) (k : A -> M B) w e w' :
  m w = (Throw e, w') -> (m ≫= k) w = (Throw e, w').
Proof. intros H. unfold mbind, M_bind. by rewrite H. Qed.

Lemma set_nodes_same w : set_nodes (nodes w) w = w.
Proof. by destruct w. Qed.

Lemma mark_stopped_idem n : mark_stopped (mark_stopped n) = mark_stopped n.
Proof. reflexivity. Qed.

Section CallbackFacts.

Variable stop_throws : SourceNode -> bool.
Variable close_throws : nat -> bool.

(** One guarded stop: it completes, and node [s] is marked unless the
    platform refused. *)
Lemma try_stop_spec s w :
  try_stop stop_throws s w =
    (Ok tt,
     match nodes w !! s with
     | Some n => if stop_throws n then w
                 else set_nodes (<[s := mark_stopped n]> (nodes w)) w
     | None => w
     end).
Proof.
  unfold try_stop, try_catch, source_stop.
  destruct (nodes w !! s) as [n|]; [|done]. by destruct (stop_throws n).
Qed.

(** The guarded loop over the tracked sources: it completes, touches the
    nodes only, and marks every tracked node whose [stop()] went through. *)
Lemma stop_loop_spec l w :
  exists N,
    forEach l (try_stop stop_throws) w = (Ok tt, set_nodes N w)
    /\ length N = length (nodes w)
    /\ forall s n, nodes w !! s = Some n ->
         (N !! s = Some n \/ N !! s = Some (mark_stopped n))
         /\ (s ∈ l -> stop_throws n = false -> N !! s = Some (mark_stopped n)).
Proof.
  revert w. induction l as [|x l IH]; intros w.
  - exists (nodes w). split; [by rewrite set_nodes_same|]. split; [done|].
    intros s n Hs. split; [by left|]. intros Hin. by apply elem_of_nil in Hin.
  - cbn [forEach]. pose proof (try_stop_spec x w) as Hx.
    destruct (nodes w !! x) as [nx|] eqn:Ex;
      [destruct (stop_throws nx) eqn:Tx|].
    + destruct (IH w) as (N & HN & Hlen & Hall). exists N.
      split; [by rewrite (bind_ok _ _ _ _ _ Hx)|]. split; [done|].
      intros s n Hs. destruct (Hall s n Hs) as [H1 H2]. split; [done|].
      intros Hin Hst. apply elem_of_cons in Hin as [-> | Hin]; [congruence | auto].
    + destruct (IH (set_nodes (<[x := mark_stopped nx]> (nodes w)) w))
        as (N & HN & Hlen & Hall).
      exists N. split; [by rewrite (bind_ok _ _ _ _ _ Hx)|].
      cbn [nodes set_nodes] in Hlen, Hall. rewrite length_insert in Hlen.
      split; [done|]. intros s n Hs.
      destruct (decide (s = x)) as [-> | Hne].
      * assert (n = nx) as -> by congruence.
        destruct (Hall x (mark_stopped nx)) as [H1 _].
        { apply list_lookup_insert_eq. by eapply lookup_lt_Some. }
        rewrite mark_stopped_idem in H1.
        assert (N !! x = Some (mark_stopped nx)) by (by destruct H1).
        split; [by right | done].
      * destruct (Hall s n) as [H1 H2].
        { by rewrite list_lookup_insert_ne. }
        split; [done|]. intros Hin Hst.
        apply elem_of_cons in Hin as [-> | Hin]; [done | auto].
    + destruct (IH w) as (N & HN & Hlen & Hall). exists N.
      split; [by rewrite (bind_ok _ _ _ _ _ Hx)|]. split; [done|].
      intros s n Hs. destruct (Hall s n Hs) as [H1 H2]. split; [done|].
      intros Hin Hst. apply elem_of_cons in Hin as [-> | Hin]; [congruence | auto].
Qed.

Lemma stopEach_spec w :
  exists N,
    stopEach stop_throws w = (Ok tt, set_nodes N w)
    /\ length N = length (nodes w)
    /\ forall s n, nodes w !! s = Some n ->
         (N !! s = Some n \/ N !! s = Some (mark_stopped n))
         /\ (s ∈ audioSourcesRef w -> stop_throws n = false ->
             N !! s = Some (mark_stopped n)).
Proof.
  destruct (stop_loop_spec (audioSourcesRef w) w) as (N & HN & H).
  exists N. split; [|exact H].
  unfold stopEach. rewrite (bind_ok get _ w w w eq_refl). exact HN.
Qed.

Lemma stopLive_spec w :
  exists N,
    stopLive stop_throws close_throws w =
      (Ok tt,
       mkWorld false idle (transcripts w) None (close_ctx (inputCtxRef w))
         (close_ctx (outputCtxRef w)) 0%Q (currentTranscriptionRef w) [] N
         (sent w) (closed_after close_throws w))
    /\ length N = length (nodes w)
    /\ forall s n, nodes w !! s = Some n ->
         (N !! s = Some n \/ N !! s = Some (mark_stopped n))
         /\ (s ∈ audioSourcesRef w -> stop_throws n = false ->
             N !! s = Some (mark_stopped n)).
Proof.
  destruct (stopEach_spec w) as (N & HN & H).
  exists N. split; [|exact H].
  unfold stopLive. rewrite (bind_ok _ _ _ _ _ HN).
  unfold closed_after, mbind, M_bind, mret, M_ret, modify, get, setIsLive,
    setStatus, try_catch, session_close.
  destruct w as [? ? ? [sess|] ? ? ? ? ? ? ? ?]; cbn; [|done].
  by destruct (close_throws sess).
Qed.


Lemma handleInterruption_spec msg now w :
  interrupted msg = true ->
  exists N,
    handleInterruption stop_throws msg now w =
      (Ok tt, set_status listening (set_nextStartTimeRef now
                (set_audioSourcesRef [] (set_nodes N w))))
    /\ length N = length (nodes w)
    /\ forall s n, nodes w !! s = Some n ->
         (N !! s = Some n \/ N !! s = Some (mark_stopped n))
         /\ (s ∈ audioSourcesRef w -> stop_throws n = false ->
             N !! s = Some (mark_stopped n)).
Proof.
  intros Hi. destruct (stopEach_spec w) as (N & HN & H).
  exists N. split; [|exact H].
  unfold handleInterruption. rewrite Hi, (bind_ok _ _ _ _ _ HN). reflexivity.
Qed.

Lemma handleInterruption_skip msg now w :
  interrupted msg = false -> handleInterruption stop_throws msg now w = (Ok tt, w).
Proof. intros Hi. unfold handleInterruption. by rewrite Hi. Qed.

End CallbackFacts.

(** ** Scheduling *)

Lemma scheduleBuffer_spec b now w :
  scheduleBuffer b now w = (Ok tt, scheduled b now w).
Proof.
  unfold scheduleBuffer, scheduled, createBufferSource, source_start, mbind,
    M_bind, get, modify. cbn.
  rewrite list_lookup_middle by done. cbn.
  rewrite insert_app_r_alt by done. rewrite Nat.sub_diag. reflexivity.
Qed.

Lemma scheduleAll_cons b now rest w :
  scheduleAll ((b, now) :: rest) w = scheduleAll rest (scheduled b now w).
Proof. cbn [scheduleAll]. unfold exec. by rewrite scheduleBuffer_spec. Qed.

(** Scheduling only appends nodes. *)
Lemma scheduleAll_nodes bs w :
  length (nodes (scheduleAll bs w)) = (length (nodes w) + length bs)%nat
  /\ forall j, (j < length (nodes w))%nat ->
       nodes (scheduleAll bs w) !! j = nodes w !! j.
Proof.
  revert w. induction bs as [|[b now] bs IH]; intros w.
  - cbn. split; [lia | done].
  - rewrite scheduleAll_cons. destruct (IH (scheduled b now w)) as [Hlen Hpre].
    cbn [scheduled nodes set_audioSourcesRef set_nextStartTimeRef set_nodes]
      in Hlen, Hpre.
    rewrite length_app in Hlen, Hpre. cbn [length] in *. split; [lia|].
    intros j Hj. rewrite Hpre by lia. by apply lookup_app_l.
Qed.

Lemma duration_nonneg b : (0 <= duration b)%Q.
Proof.
  unfold duration. apply fdiv_nonneg; [|reflexivity].
  change 0%Q with (inject_Z 0). rewrite <- Zle_Qle. lia.
Qed.

(** Once [nextStartTimeRef] has passed [t0], every later buffer starts at
    [t0] or after. *)
Lemma scheduleAll_after t0 bs w j n :
  (t0 <= nextStartTimeRef w)%Q ->
  nodes (scheduleAll bs w) !! (length (nodes w) + j)%nat = Some n ->
  exists t, startedAt n = Some t /\ (t0 <= t)%Q.
Proof.
  revert w j. induction bs as [|[b now] bs IH]; intros w j Ht Hn.
  - cbn in Hn. apply lookup_lt_Some in Hn. lia.
  - rewrite scheduleAll_cons in Hn.
    pose proof (Q.le_max_r now (nextStartTimeRef w)) as Hmax.
    destruct j as [|j].
    + destruct (scheduleAll_nodes bs (scheduled b now w)) as [_ Hpre].
      rewrite Hpre in Hn.
      2:{ cbn. rewrite length_app. cbn. lia. }
      cbn in Hn. rewrite Nat.add_0_r, list_lookup_middle in Hn by done.
      inversion Hn; subst n. eexists. split; [reflexivity|]. lra.
    + apply (IH (scheduled b now w) j).
      * cbn.
        pose proof (fadd_ge (Qmax now (nextStartTimeRef w)) (duration b)
                      (duration_nonneg b)).
        lra.
      * rewrite <- Hn. f_equal. cbn. rewrite length_app. cbn. lia.
Qed.

(** ** The message handler *)

Lemma bind_assoc {A B C} (m : M A) (k : A -> M B) (h : B -> M C) w :
  ((m ≫= k) ≫= h) w = (m ≫= (fun a => k a ≫= h)) w.
Proof. unfold mbind, M_bind. by destruct (m w) as [[a|e] w']. Qed.

Lemma onmessage_split st msg now w :
  onmessage st msg now w =
    (before_interruption msg now;; handleInterruption st msg now) w.
Proof.
  unfold onmessage, before_interruption, mbind, M_bind.
  destruct (receiveTranscriptions msg w) as [[[]|e1] w1]; [|done].
  destruct (completeTurn msg w1) as [[[]|e2] w2]; [|done].
  by destruct (playAudio msg now w2) as [[[]|e3] w3].
Qed.

Lemma receiveTranscriptions_spec msg w :
  exists c s,
    receiveTranscriptions msg w =
      (Ok tt, set_status s (set_currentTranscriptionRef c w)).
Proof.
  unfold receiveTranscriptions, mbind, M_bind, mret, M_ret, modify, setStatus.
  destruct w, (inputTranscription msg), (outputTranscription msg);
    eexists _, _; cbn; reflexivity.
Qed.

Lemma completeTurn_spec msg w :
  turnComplete msg = true ->
  completeTurn msg w =
    (Ok tt,
     set_status listening
       (set_currentTranscriptionRef (mkTranscription [] [])
          (set_transcripts
             (transcripts w
                ++ flushed (trim (user (currentTranscriptionRef w)))
                     (trim (model (currentTranscriptionRef w)))) w))).
Proof.
  intros Ht. unfold completeTurn, flushed. rewrite Ht.
  unfold mbind, M_bind, mret, M_ret, modify, setStatus, get.
  destruct (truthy (trim (user (currentTranscriptionRef w)))) eqn:Eu;
    destruct (truthy (trim (model (currentTranscriptionRef w)))) eqn:Em;
    cbn; rewrite ?Eu, ?Em; try reflexivity.
  rewrite app_nil_r. by destruct w.
Qed.

Lemma playAudio_cases msg now w :
  (exists e, playAudio msg now w = (Throw e, w))
  \/ playAudio msg now w = (Ok tt, w)
  \/ (exists b, playAudio msg now w = (Ok tt, scheduled b now w)).
Proof.
  unfold playAudio.
  destruct (audioData msg) as [d|]; [|by right; left].
  destruct (truthy d); [|by right; left].
  unfold mbind, M_bind, lift.
  destruct (decodeBase64Audio d) as [bytes|e]; [|left; by exists e].
  destruct (decodeAudioToBuffer bytes) as [b|e]; [|left; by exists e].
  right; right. exists b. apply scheduleBuffer_spec.
Qed.

(** Parts 2 and 3 leave the transcript side alone, and a status of
    listening stays. *)
Lemma onmessage_transcript_frame st msg now w w2 :
  (receiveTranscriptions msg;; completeTurn msg) w = (Ok tt, w2) ->
  let w' := exec (onmessage st msg now) w in
  transcripts w' = transcripts w2
  /\ currentTranscriptionRef w' = currentTranscriptionRef w2
  /\ (status w2 = listening -> status w' = listening).
Proof.
  intros H12. unfold exec. rewrite onmessage_split. unfold before_interruption.
  assert (E : (receiveTranscriptions msg;; completeTurn msg;; playAudio msg now) w
              = playAudio msg now w2).
  { rewrite <- bind_assoc. by rewrite (bind_ok _ _ _ _ _ H12). }
  assert (Hint : forall w3, transcripts w3 = transcripts w2 ->
            currentTranscriptionRef w3 = currentTranscriptionRef w2 ->
            (status w2 = listening -> status w3 = listening) ->
            let w' := snd (handleInterruption st msg now w3) in
            transcripts w' = transcripts w2
            /\ currentTranscriptionRef w' = currentTranscriptionRef w2
            /\ (status w2 = listening -> status w' = listening)).
  { intros w3 H1 H2 H3. destruct (interrupted msg) eqn:Ei.
    - destruct (handleInterruption_spec st msg now w3 Ei) as (N & HN & _).
      rewrite HN. cbn. auto.
    - rewrite handleInterruption_skip by done. cbn. auto. }
  destruct (playAudio_cases msg now w2) as [[e He] | [He | [b He]]];
    rewrite He in E.
  - rewrite (bind_throw _ _ _ _ _ E). cbn. auto.
  - rewrite (bind_ok _ _ _ _ _ E). by apply Hint.
  - rewrite (bind_ok _ _ _ _ _ E). by apply Hint.
Qed.

Lemma truthy_nil (s : jsstring) : truthy s = false <-> s = [].
Proof. destruct s; cbn; split; congruence. Qed.

(** C4. For every accumulated pair of user and model texts (the deltas
    of the same message included), a message with the turn-complete
    marker appends to the log: nothing when both trim to empty; exactly
    one model entry when only the model text is left after trimming, and
    exactly one user entry when only the user text is; exactly the two
    entries, user then model, when both are. Afterwards both accumulators
    are empty and the status is listening. *)
Theorem turn_complete_flushes (stop_throws : SourceNode -> bool)
    (w : World) (msg : ServerMsg) (now : Q) :
  turnComplete msg = true ->
  let acc := currentTranscriptionRef (exec (receiveTranscriptions msg) w) in
  let userText := trim (user acc) in
  let modelText := trim (model acc) in
  let w' := exec (onmessage stop_throws msg now) w in
  (userText = [] -> modelText = [] -> transcripts w' = transcripts w)
  /\ (userText = [] -> modelText <> [] ->
      transcripts w' = transcripts w ++ [mkLine modelText Model])
  /\ (userText <> [] -> modelText = [] ->
      transcripts w' = transcripts w ++ [mkLine userText User])
  /\ (userText <> [] -> modelText <> [] ->
      transcripts w' =
        transcripts w ++ [mkLine userText User; mkLine modelText Model])
  /\ currentTranscriptionRef w' = mkTranscription [] []
  /\ status w' = listening.
Proof.
  intros Ht acc userText modelText w'.
  destruct (receiveTranscriptions_spec msg w) as (c & s & H1).
  set (w1 := set_status s (set_currentTranscriptionRef c w)) in *.
  pose proof (completeTurn_spec msg w1 Ht) as H2.
  assert (H12 : (receiveTranscriptions msg;; completeTurn msg) w
                = (Ok tt, snd (completeTurn msg w1))).
  { rewrite (bind_ok _ _ _ _ _ H1). by rewrite H2. }
  destruct (onmessage_transcript_frame stop_throws msg now w _ H12)
    as (Htr & Hcur & Hst).
  fold w' in Htr, Hcur, Hst. rewrite H2 in Htr, Hcur, Hst. cbn in Htr, Hcur, Hst.
  assert (Eacc : acc = c) by (subst acc; unfold exec; by rewrite H1).
  rewrite <- Eacc in Htr. fold userText modelText in Htr.
  rewrite Htr, Hcur, Hst by done. unfold flushed.
  repeat split; try done; intros Hu Hm;
    try (apply truthy_nil in Hu as ->); try (apply truthy_nil in Hm as ->);
    rewrite ?app_nil_r; try done.
  - destruct modelText; [done|]. reflexivity.
  - destruct userText; [done|]. reflexivity.
  - destruct userText; [done|]. destruct modelText; [done|]. reflexivity.
Qed.

(** ** The playback side of a message *)

Lemma completeTurn_playback msg w :
  exists w', completeTurn msg w = (Ok tt, w') /\ same_playback w' w.
Proof.
  unfold completeTurn, same_playback, mbind, M_bind, mret, M_ret, modify,
    setStatus, get.
  destruct (turnComplete msg); [|by eexists].
  destruct (truthy _ || truthy _); by eexists.
Qed.

Lemma scheduled_playback b now w w0 :
  same_playback w w0 -> same_playback (scheduled b now w) (scheduled b now w0).
Proof.
  unfold same_playback, scheduled. intros (Hn & Ht & Hs). cbn.
  by rewrite Hn, Ht, Hs.
Qed.

(** ** The playback scheduler *)


(** ** Interruption *)

(** C2, amended. For every session state and every clock reading, a
    message that carries an interruption marker and whose handler runs to
    its end (the inline audio, if any, decodes) has every buffer of the
    active-source set stopped unless the platform refused that stop,
    leaves the set empty, sets nextStartTime to the clock reading and the
    status to listening; every buffer scheduled afterwards starts at that
    clock reading or later. *)
Theorem interruption_clears_playback (stop_throws : SourceNode -> bool)
    (w : World) (msg : ServerMsg) (now : Q) :
  interrupted msg = true ->
  outcome (onmessage stop_throws msg now) w = Ok tt ->
  let w1 := exec (before_interruption msg now) w in
  let w' := exec (onmessage stop_throws msg now) w in
  (forall s n, s ∈ audioSourcesRef w1 -> nodes w1 !! s = Some n ->
     exists n', nodes w' !! s = Some n'
                /\ (stopped n' = true \/ stop_throws n = true))
  /\ audioSourcesRef w' = []
  /\ nextStartTimeRef w' = now
  /\ status w' = listening
  /\ (forall bs j n,
        nodes (scheduleAll bs w') !! (length (nodes w') + j)%nat = Some n ->
        exists t, startedAt n = Some t /\ (now <= t)%Q).
Proof.
  intros Hi Hok w1 w'. subst w1 w'. unfold exec, outcome in *.
  rewrite onmessage_split in *.
  destruct (before_interruption msg now w) as [[[]|e] w1] eqn:Hb.
  2:{ by rewrite (bind_throw _ _ _ _ _ Hb) in Hok. }
  rewrite (bind_ok _ _ _ _ _ Hb). cbn [snd].
  destruct (handleInterruption_spec stop_throws msg now w1 Hi)
    as (N & HN & Hlen & Hall).
  rewrite HN. cbn [snd]. split; [|repeat split].
  - intros s n Hin Hs. destruct (Hall s n Hs) as [H1 H2]. cbn.
    destruct (stop_throws n) eqn:Et.
    + destruct H1 as [H1 | H1]; eexists; (split; [exact H1 | by right]).
    + eexists. split; [by apply H2 | by left].
  - intros bs j n Hn. eapply scheduleAll_after; [|exact Hn]. cbn. lra.
Qed.

(** ** Stopping *)

(** [stopLive] completes and leaves no session handle and a status of
    idle. *)
Lemma stopLive_outcome stop_throws close_throws w :
  outcome (stopLive stop_throws close_throws) w = Ok tt
  /\ sessionRef (exec (stopLive stop_throws close_throws) w) = None
  /\ status (exec (stopLive stop_throws close_throws) w) = idle.
Proof.
  destruct (stopLive_spec stop_throws close_throws w) as (N & HN & _).
  unfold exec, outcome. by rewrite HN.
Qed.

(** C5, amended. For every session state, after [stopLive]: every tracked
    playback buffer is stopped unless the platform refused that stop, the
    active-source set is empty, the transport handle is cleared, the
    status is idle and nextStartTime is 0; the transcript accumulators and
    the transcript log are left as they were. *)
Theorem stopLive_resets (stop_throws : SourceNode -> bool)
    (close_throws : nat -> bool) (w : World) :
  let w' := exec (stopLive stop_throws close_throws) w in
  outcome (stopLive stop_throws close_throws) w = Ok tt
  /\ (forall s n, s ∈ audioSourcesRef w -> nodes w !! s = Some n ->
        exists n', nodes w' !! s = Some n'
                   /\ (stopped n' = true \/ stop_throws n = true))
  /\ audioSourcesRef w' = []
  /\ sessionRef w' = None
  /\ isLive w' = false
  /\ status w' = idle
  /\ nextStartTimeRef w' = 0%Q
  /\ transcripts w' = transcripts w
  /\ currentTranscriptionRef w' = currentTranscriptionRef w.
Proof.
  destruct (stopLive_spec stop_throws close_throws w) as (N & HN & Hlen & Hall).
  unfold exec, outcome. rewrite HN. cbn. repeat split; try done.
  intros s n Hin Hs. destruct (Hall s n Hs) as [H1 H2].
  destruct (stop_throws n) eqn:Et.
  - destruct H1 as [H1 | H1]; eexists; (split; [exact H1 | by right]).
  - eexists. split; [by apply H2 | by left].
Qed.

(** C6. [stopLive] clears the session handle, and in every state whose
    session handle is cleared the audio-capture callback is a no-op: it
    returns at the guard, so nothing is encoded, nothing is handed to the
    transport and the state is as it was. *)
Theorem capture_is_silent_without_session (stop_throws : SourceNode -> bool)
    (close_throws : nat -> bool) (w : World) (inputData : list Q) :
  sessionRef (exec (stopLive stop_throws close_throws) w) = None
  /\ (sessionRef w = None ->
      onaudioprocess inputData w = (Ok tt, w)
      /\ sent (exec (onaudioprocess inputData) w) = sent w).
Proof.
  split; [apply stopLive_outcome|].
  intros Hs. unfold exec, onaudioprocess, mbind, M_bind, get. by rewrite Hs.
Qed.

(** With a live handle the same callback does send the encoded chunk. *)
Lemma capture_sends_with_session (w : World) (inputData : list Q) (sess : nat) :
  sessionRef w = Some sess ->
  onaudioprocess inputData w =
    (Ok tt,
     set_sent (sent w ++ [(sess, mkMedia (encode_spec inputData)
                                   (js "audio/pcm;rate=16000"))]) w).
Proof.
  intros Hs. unfold onaudioprocess, mbind, M_bind, get, lift. rewrite Hs.
  by rewrite encodeAudioChunk_spec.
Qed.

(** C7. [stopLive] on a session that was never started, and [stopLive]
    twice in a row from any state, throw nothing and leave the status
    idle each time; the second of two consecutive calls leaves the state
    exactly as the first left it. *)
Theorem stopLive_idempotent (stop_throws : SourceNode -> bool)
    (close_throws : nat -> bool) (w : World) :
  let stop := stopLive stop_throws close_throws in
  outcome stop initial = Ok tt
  /\ status (exec stop initial) = idle
  /\ outcome stop w = Ok tt
  /\ status (exec stop w) = idle
  /\ outcome stop (exec stop w) = Ok tt
  /\ status (exec stop (exec stop w)) = idle
  /\ exec stop (exec stop w) = exec stop w.
Proof.
  intros stop. subst stop.
  pose proof (stopLive_outcome stop_throws close_throws) as R.
  split; [apply (R initial)|]. split; [apply (R initial)|].
  split; [apply (R w)|]. split; [apply (R w)|].
  split; [apply (R (exec _ w))|]. split; [apply (R (exec _ w))|].
  destruct (stopLive_spec stop_throws close_throws w) as (N & HN & _).
  unfold exec at 2 3. rewrite HN. cbn [snd].
  unfold exec, stopLive, stopEach, mbind, M_bind, mret, M_ret, modify, get,
    setIsLive, setStatus. cbn.
  by destruct (inputCtxRef w) as [[]|], (outputCtxRef w) as [[]|].
Qed.

(** C9. Whichever nodes make [stop()] throw, an already finished one
    included, the stops issued while handling an interruption and during
    [stopLive] never let the error out: both complete, and every tracked
    buffer whose [stop()] does not throw is stopped all the same, with
    its audio and its start time as they were. *)
Theorem stop_errors_are_swallowed (stop_throws : SourceNode -> bool)
    (close_throws : nat -> bool) (w : World) (msg : ServerMsg) (now : Q) :
  outcome (handleInterruption stop_throws msg now) w = Ok tt
  /\ outcome (stopLive stop_throws close_throws) w = Ok tt
  /\ forall s n,
       s ∈ audioSourcesRef w -> nodes w !! s = Some n -> stop_throws n = false ->
       (interrupted msg = true ->
        exists n',
          nodes (exec (handleInterruption stop_throws msg now) w) !! s = Some n'
          /\ stopped n' = true
          /\ buffer n' = buffer n /\ startedAt n' = startedAt n)
       /\ (exists n',
            nodes (exec (stopLive stop_throws close_throws) w) !! s = Some n'
            /\ stopped n' = true
            /\ buffer n' = buffer n /\ startedAt n' = startedAt n).
Proof.
  split; [|split].
  - unfold outcome. destruct (interrupted msg) eqn:Ei.
    + destruct (handleInterruption_spec stop_throws msg now w Ei) as (N & -> & _).
      reflexivity.
    + by rewrite handleInterruption_skip.
  - apply stopLive_outcome.
  - intros s n Hin Hs Ht. split.
    + intros Ei.
      destruct (handleInterruption_spec stop_throws msg now w Ei)
        as (N & HN & _ & Hall).
      unfold exec. rewrite HN. cbn. exists (mark_stopped n).
      split; [by apply Hall | done].
    + destruct (stopLive_spec stop_throws close_throws w) as (N & HN & _ & Hall).
      unfold exec. rewrite HN. cbn. exists (mark_stopped n).
      split; [by apply Hall | done].
Qed.

(** * Histories, the text service and the text mode *)

(** ** The session as a history of events *)

Lemma onmessage_touches st msg now w :
  exists s t q c l N,
    exec (onmessage st msg now) w =
      mkWorld (isLive w) s t (sessionRef w) (inputCtxRef w) (outputCtxRef w)
        q c l N (sent w) (closedSessions w).
Proof.
  unfold exec. rewrite onmessage_split. unfold before_interruption.
  destruct (receiveTranscriptions_spec msg w) as (c & s & H1).
  assert (H2 : exists t c' s',
             (receiveTranscriptions msg;; completeTurn msg) w =
               (Ok tt, set_status s' (set_currentTranscriptionRef c'
                         (set_transcripts t w)))).
  { rewrite (bind_ok _ _ _ _ _ H1).
    unfold completeTurn, mbind, M_bind, mret, M_ret, modify, setStatus, get.
    destruct w, (turnComplete msg); [|by eexists _, _, _].
    destruct (truthy _ || truthy _); by eexists _, _, _. }
  destruct H2 as (t & c' & s' & H2).
  set (w2 := set_status s' (set_currentTranscriptionRef c' (set_transcripts t w))) in *.
  assert (E : (receiveTranscriptions msg;; completeTurn msg;; playAudio msg now) w
              = playAudio msg now w2).
  { rewrite <- bind_assoc. by rewrite (bind_ok _ _ _ _ _ H2). }
  assert (Hint : forall w3,
            (exists s t q c l N, w3 = mkWorld (isLive w) s t (sessionRef w)
               (inputCtxRef w) (outputCtxRef w) q c l N (sent w) (closedSessions w)) ->
            exists s t q c l N,
              snd (handleInterruption st msg now w3) =
                mkWorld (isLive w) s t (sessionRef w) (inputCtxRef w)
                  (outputCtxRef w) q c l N (sent w) (closedSessions w)).
  { intros w3 (s3 & t3 & q3 & c3 & l3 & N3 & Hw3).
    destruct (interrupted msg) eqn:Ei.
    - destruct (handleInterruption_spec st msg now w3 Ei) as (N & -> & _).
      subst w3. cbn. by eexists _, _, _, _, _, _.
    - rewrite handleInterruption_skip by done. subst w3. cbn.
      by eexists _, _, _, _, _, _. }
  assert (Hw2 : exists s t q c l N, w2 = mkWorld (isLive w) s t (sessionRef w)
               (inputCtxRef w) (outputCtxRef w) q c l N (sent w) (closedSessions w)).
  { subst w2. destruct w. cbn. by eexists _, _, _, _, _, _. }
  destruct (playAudio_cases msg now w2) as [[e He] | [He | [b He]]];
    rewrite He in E.
  - rewrite (bind_throw _ _ _ _ _ E). exact Hw2.
  - rewrite (bind_ok _ _ _ _ _ E). by apply Hint.
  - rewrite (bind_ok _ _ _ _ _ E). apply Hint.
    destruct Hw2 as (s3 & t3 & q3 & c3 & l3 & N3 & ->). cbn.
    by eexists _, _, _, _, _, _.
Qed.

(** A property of the state that the three kinds of update of [onmessage]
    keep is kept by [onmessage]. *)
Lemma onmessage_keeps st (P : World -> Prop) msg now w :
  (forall w s c t, P w ->
     P (set_status s (set_currentTranscriptionRef c (set_transcripts t w)))) ->
  (forall w b, P w -> P (scheduled b now w)) ->
  (forall w N, P w -> length N = length (nodes w) ->
     (forall s n, nodes w !! s = Some n ->
        N !! s = Some n \/ N !! s = Some (mark_stopped n)) ->
     P (set_status listening (set_nextStartTimeRef now
          (set_audioSourcesRef [] (set_nodes N w))))) ->
  P w -> P (exec (onmessage st msg now) w).
Proof.
  intros Ha Hb Hc Hw. unfold exec. rewrite onmessage_split.
  unfold before_interruption.
  destruct (receiveTranscriptions_spec msg w) as (c & s & H1).
  assert (H2 : exists w2, (receiveTranscriptions msg;; completeTurn msg) w = (Ok tt, w2)
                          /\ P w2).
  { rewrite (bind_ok _ _ _ _ _ H1).
    unfold completeTurn, mbind, M_bind, mret, M_ret, modify, setStatus, get.
    destruct (turnComplete msg).
    2:{ eexists. split; [reflexivity|].
        replace (set_status s (set_currentTranscriptionRef c w))
          with (set_status s (set_currentTranscriptionRef c
                  (set_transcripts (transcripts w) w))) by (by destruct w).
        by apply Ha. }
    destruct (truthy _ || truthy _); eexists; (split; [reflexivity|]); cbn.
    - match goal with |- P ?x =>
        replace x with (set_status listening
          (set_currentTranscriptionRef (mkTranscription [] [])
             (set_transcripts (transcripts x) w))) by (by destruct w) end.
      by apply Ha.
    - match goal with |- P ?x =>
        replace x with (set_status listening
          (set_currentTranscriptionRef (mkTranscription [] [])
             (set_transcripts (transcripts w) w))) by (by destruct w) end.
      by apply Ha. }
  destruct H2 as (w2 & H2 & Hw2).
  assert (E : (receiveTranscriptions msg;; completeTurn msg;; playAudio msg now) w
              = playAudio msg now w2).
  { rewrite <- bind_assoc. by rewrite (bind_ok _ _ _ _ _ H2). }
  assert (Hint : forall w3, P w3 -> P (snd (handleInterruption st msg now w3))).
  { intros w3 Hw3. destruct (interrupted msg) eqn:Ei.
    - destruct (handleInterruption_spec st msg now w3 Ei) as (N & -> & Hlen & Hall).
      cbn [snd]. apply Hc; [done..|]. intros s0 n Hs. by apply Hall.
    - by rewrite handleInterruption_skip. }
  destruct (playAudio_cases msg now w2) as [[e He] | [He | [b He]]];
    rewrite He in E.
  - by rewrite (bind_throw _ _ _ _ _ E).
  - rewrite (bind_ok _ _ _ _ _ E). by apply Hint.
  - rewrite (bind_ok _ _ _ _ _ E). by apply Hint, Hb.
Qed.

Lemma coherent_scheduled b now w : coherent w -> coherent (scheduled b now w).
Proof.
  intros (Hnd & Hin & Hst). unfold coherent, scheduled, set_add. cbn.
  assert (Hfresh : length (nodes w) ∉ audioSourcesRef w).
  { intros H. apply Hin in H. lia. }
  rewrite decide_False by done. split; [|split].
  - apply NoDup_app. split; [done|]. split; [|apply NoDup_singleton].
    intros s Hs Hs'. apply list_elem_of_singleton in Hs'. by subst.
  - intros s Hs. rewrite length_app. cbn.
    apply elem_of_app in Hs as [Hs | Hs]; [apply Hin in Hs; lia|].
    apply list_elem_of_singleton in Hs. lia.
  - apply Forall_app. split; [done|]. by repeat constructor.
Qed.

Lemma coherent_stopped w N s q :
  coherent w -> length N = length (nodes w) ->
  (forall i n, nodes w !! i = Some n ->
     N !! i = Some n \/ N !! i = Some (mark_stopped n)) ->
  coherent (set_status s (set_nextStartTimeRef q
              (set_audioSourcesRef [] (set_nodes N w)))).
Proof.
  intros (Hnd & Hin & Hst) Hlen Hall. unfold coherent. cbn.
  split; [apply NoDup_nil_2|]. split; [intros i Hi; by apply elem_of_nil in Hi|].
  apply Forall_lookup. intros i x Hx.
  destruct (lookup_lt_is_Some_2 (nodes w) i) as [n Hn].
  { rewrite <- Hlen. by eapply lookup_lt_Some. }
  pose proof (proj1 (Forall_lookup _ _) Hst i n Hn) as Hs.
  destruct (Hall i n Hn) as [H | H]; rewrite H in Hx; by simplify_eq.
Qed.

Lemma coherent_onmessage st msg now w :
  coherent w -> coherent (exec (onmessage st msg now) w).
Proof.
  apply onmessage_keeps.
  - by intros [] ? ? ?.
  - intros ? ?. apply coherent_scheduled.
  - intros w0 N Hw Hlen Hall. by apply coherent_stopped.
Qed.

Lemma coherent_stopLive st ct w :
  coherent w -> coherent (exec (stopLive st ct) w).
Proof.
  intros Hw. destruct (stopLive_spec st ct w) as (N & HN & Hlen & Hall).
  unfold exec. rewrite HN. cbn [snd].
  pose proof (coherent_stopped w N idle 0%Q Hw Hlen
                (fun i n Hi => proj1 (Hall i n Hi))) as H.
  exact H.
Qed.

Lemma set_delete_spec s l x : x ∈ set_delete s l <-> x ∈ l /\ x <> s.
Proof.
  unfold set_delete. rewrite list_elem_of_In, filter_In, <- list_elem_of_In.
  rewrite negb_true_iff, Nat.eqb_neq. done.
Qed.

Lemma set_delete_NoDup s l : NoDup l -> NoDup (set_delete s l).
Proof.
  unfold set_delete. induction 1 as [|x l Hx Hl IH]; cbn; [constructor|].
  destruct (negb (x =? s)%nat); [|done]. constructor; [|done].
  intros Hin. apply Hx. apply list_elem_of_In. apply list_elem_of_In in Hin.
  by apply filter_In in Hin as [Hin _].
Qed.

Lemma coherent_onended s w : coherent w -> coherent (exec (onended s) w).
Proof.
  intros (Hnd & Hin & Hst). unfold coherent, exec, onended, modify. cbn.
  split; [by apply set_delete_NoDup|]. split; [|done].
  intros x Hx. apply set_delete_spec in Hx as [Hx _]. by apply Hin.
Qed.

Lemma coherent_handle st ct ev w :
  coherent w -> coherent (exec (handle st ct ev) w).
Proof.
  intros Hw. destruct ev; cbn [handle].
  - by destruct w.
  - by destruct w.
  - by destruct w.
  - by destruct w.
  - by apply coherent_onmessage.
  - unfold exec, onaudioprocess, mbind, M_bind, get, lift, sendRealtimeInput, modify.
    destruct (sessionRef w); [|done].
    destruct (encodeAudioChunk inputData); [|done]. by destruct w.
  - by apply coherent_onended.
  - by apply coherent_stopLive.
  - by destruct w.
  - by apply coherent_stopLive.
Qed.

(** An invariant of the events is an invariant of their histories. *)
Lemma run_keeps st ct (P : World -> Prop) :
  (forall ev w, P w -> P (exec (handle st ct ev) w)) ->
  forall evs w, P w -> P (run st ct evs w).
Proof.
  intros Hstep evs. induction evs as [|ev evs IH]; intros w Hw; [done|].
  cbn [run]. by apply IH, Hstep.
Qed.

Lemma coherent_initial : coherent initial.
Proof.
  unfold coherent, initial. cbn.
  split; [apply NoDup_nil_2|]. split; [|constructor].
  intros s Hs. by apply elem_of_nil in Hs.
Qed.

(** X1. Whatever the component runs, in whatever order (the resumptions of
    [startLive], messages, captured frames, sources that end, errors,
    closes, stops), starting from its initial state: the active-source
    set holds no source twice, every source in it is a node that the
    message callback created, and every node that was created has been
    started. *)
Theorem tracking_is_coherent (stop_throws : SourceNode -> bool)
    (close_throws : nat -> bool) (evs : list Event) :
  coherent (run stop_throws close_throws evs initial).
Proof.
  apply run_keeps; [|apply coherent_initial].
  intros ev w. apply coherent_handle.
Qed.

(** X2. On a platform whose [stop()] throws only on a node that was never
    started, every source that is in the active-source set after any
    history is stopped by [stopLive], and by a message that carries the
    interruption marker alone: nothing is skipped by the empty catch. *)
Theorem conforming_stop_reaches_all (close_throws : nat -> bool)
    (evs : list Event) (msg : ServerMsg) (now : Q) (s : nat) :
  let w := run throws_unless_started close_throws evs initial in
  s ∈ audioSourcesRef w ->
  (exists n', nodes (exec (stopLive throws_unless_started close_throws) w) !! s
                = Some n' /\ stopped n' = true)
  /\ (interrupted msg = true ->
      exists n', nodes (exec (handleInterruption throws_unless_started msg now) w) !! s
                   = Some n' /\ stopped n' = true).
Proof.
  intros w Hs.
  assert (Hw : coherent w).
  { apply run_keeps; [|apply coherent_initial].
    intros ev w0. apply coherent_handle. }
  destruct Hw as (_ & Hin & Hst).
  destruct (lookup_lt_is_Some_2 (nodes w) s (Hin s Hs)) as [n Hn].
  assert (Hthrow : throws_unless_started n = false).
  { pose proof (proj1 (Forall_lookup _ _) Hst s n Hn) as H.
    unfold throws_unless_started. destruct (startedAt n) eqn:E; [done | congruence]. }
  split.
  - destruct (stopLive_spec throws_unless_started close_throws w)
      as (N & HN & _ & Hall).
    unfold exec. rewrite HN. cbn. exists (mark_stopped n).
    split; [by apply Hall | done].
  - intros Ei.
    destruct (handleInterruption_spec throws_unless_started msg now w Ei)
      as (N & HN & _ & Hall).
    unfold exec. rewrite HN. cbn. exists (mark_stopped n).
    split; [by apply Hall | done].
Qed.

(** ** What is sent *)

Lemma encoded_chunk_decodes frame :
  exists bytes,
    decodeBase64Audio (base64_encode (bytes_of_int16s (quantize frame))) = Ok bytes
    /\ length bytes = (2 * length frame)%nat.
Proof.
  exists (bytes_of_int16s (quantize frame)). unfold decodeBase64Audio.
  rewrite atob_base64_encode by apply bytes_of_int16s_octets. cbn [res_bind].
  rewrite toUint8_octets by apply bytes_of_int16s_octets.
  split; [done|]. rewrite bytes_of_int16s_length. unfold quantize.
  by rewrite length_map.
Qed.

(** One event sends nothing, or it is a captured frame while a session
    is held, and it sends the chunk of that frame to that session; and a
    session that is held afterwards was held before or has just been
    obtained. *)
Lemma sent_handle st ct ev w :
  let w' := exec (handle st ct ev) w in
  (forall sess, sessionRef w' = Some sess ->
     sessionRef w = Some sess \/ ev = Connected sess)
  /\ (sent w' = sent w
      \/ exists frame sess m,
           ev = AudioProcess frame /\ sessionRef w = Some sess
           /\ pcm_chunk frame m /\ sent w' = sent w ++ [(sess, m)]).
Proof.
  intros w'. subst w'. destruct ev; cbn [handle].
  - destruct w. cbn. split; [intros; by left | by left].
  - unfold exec, startLive_session, modify. cbn.
    split; [intros sess0 [= <-]; by right | by left].
  - destruct w. cbn. split; [intros; by left | by left].
  - destruct w. cbn. split; [intros; by left | by left].
  - destruct (onmessage_touches st msg now w) as (s & t & q & c & l & N & ->).
    cbn. split; [intros; by left | by left].
  - unfold exec, onaudioprocess, mbind, M_bind, mret, M_ret, get, lift,
      sendRealtimeInput, modify.
    destruct (sessionRef w) as [sess|] eqn:Es.
    2:{ cbn. rewrite Es. split; [intros; by left | by left]. }
    rewrite encodeAudioChunk_ok. cbn. rewrite Es.
    split; [intros; by left|]. right.
    destruct (encoded_chunk_decodes inputData) as (bytes & Hb & Hl).
    eexists inputData, sess, _. split; [done|]. split; [done|].
    split; [|reflexivity]. split; [done|]. cbn.
    split; [apply encodeAudioChunk_ok | by exists bytes].
  - destruct w. cbn. split; [intros; by left | by left].
  - destruct (stopLive_spec st ct w) as (N & HN & _).
    unfold exec, onerror. rewrite HN. cbn. split; [intros sess [=] | by left].
  - destruct w. cbn. split; [intros; by left | by left].
  - destruct (stopLive_spec st ct w) as (N & HN & _).
    unfold exec. rewrite HN. cbn. split; [intros sess [=] | by left].
Qed.

Lemma connected_cons ev evs sess :
  sess ∈ connected evs -> sess ∈ connected (ev :: evs).
Proof. intros H. unfold connected. cbn. apply elem_of_app. by right. Qed.

(** What a history adds to what was sent. *)
Lemma sent_run st ct (A : list nat) evs w frames0 :
  (forall sess, sess ∈ connected evs -> sess ∈ A) ->
  (forall sess, sessionRef w = Some sess -> sess ∈ A) ->
  Forall2 (fun e frame => fst e ∈ A /\ pcm_chunk frame (snd e)) (sent w) frames0 ->
  exists frames,
    sublist frames (captured evs)
    /\ Forall2 (fun e frame => fst e ∈ A /\ pcm_chunk frame (snd e))
         (sent (run st ct evs w)) (frames0 ++ frames).
Proof.
  revert w frames0. induction evs as [|ev evs IH]; intros w frames0 HA Hs Hsent.
  - exists []. split; [constructor|]. by rewrite app_nil_r.
  - cbn [run]. destruct (sent_handle st ct ev w) as [Hs' Hstep].
    assert (HA' : forall sess, sess ∈ connected evs -> sess ∈ A)
      by (intros sess Hc; by apply HA, connected_cons).
    assert (Hs'' : forall sess,
              sessionRef (exec (handle st ct ev) w) = Some sess -> sess ∈ A).
    { intros sess H. destruct (Hs' sess H) as [H' | ->]; [by apply Hs|].
      apply HA. unfold connected. cbn. by left. }
    destruct Hstep as [E | (frame & sess & m & -> & Es & Hm & E)].
    + destruct (IH _ frames0 HA' Hs'') as (frames & Hsub & H).
      { by rewrite E. }
      exists frames. split; [|done].
      unfold captured. cbn [flat_map]. by apply sublist_inserts_l.
    + destruct (IH _ (frames0 ++ [frame]) HA' Hs'') as (frames & Hsub & H).
      { rewrite E. apply Forall2_app; [done|]. constructor; [|constructor].
        split; [by apply Hs | done]. }
      exists (frame :: frames). split; [by apply sublist_skip|].
      by rewrite <- app_assoc in H.
Qed.

(** X3. After any history, what the component has sent is, in order, the
    chunks of frames that the capture callback was given in that history,
    each frame at most once and in the order of capture: every entry went
    to a session that [startLive] had obtained, has the mime type
    [audio/pcm;rate=16000], and is the encoding of its frame, base64 that
    decodes to two octets for each sample. *)
Theorem sent_chunks_are_pcm (stop_throws : SourceNode -> bool)
    (close_throws : nat -> bool) (evs : list Event) :
  exists frames,
    sublist frames (captured evs)
    /\ Forall2 (fun e frame => fst e ∈ connected evs /\ pcm_chunk frame (snd e))
         (sent (run stop_throws close_throws evs initial)) frames.
Proof.
  destruct (sent_run stop_throws close_throws (connected evs) evs initial [])
    as (frames & Hsub & H); [done| |constructor|by exists frames].
  intros sess. cbn. discriminate.
Qed.

(** ** Trimming *)

Lemma trim_start_suffix s : exists p, s = p ++ trim_start s.
Proof.
  induction s as [|c s [p IH]]; [by exists []|]. cbn.
  destruct (is_white_space c); [|by exists []].
  exists (c :: p). cbn. by f_equal.
Qed.

Lemma trim_start_head s c : head (trim_start s) = Some c -> is_white_space c = false.
Proof.
  induction s as [|x s IH]; cbn; [done|].
  destruct (is_white_space x) eqn:E; [done|]. cbn. by intros [= <-].
Qed.

Lemma head_rev {A} (l : list A) : head (rev l) = last l.
Proof.
  induction l as [|x l IH] using rev_ind; [done|].
  rewrite rev_app_distr, last_snoc. done.
Qed.

Lemma last_rev {A} (l : list A) : last (rev l) = head l.
Proof. rewrite <- (rev_involutive l) at 2. by rewrite head_rev. Qed.

Lemma trim_trimmed s : trimmed (trim s).
Proof.
  unfold trimmed, trim. split; intros c Hc.
  - rewrite head_rev in Hc.
    destruct (trim_start_suffix (rev (trim_start s))) as [p Hp].
    set (b := trim_start (rev (trim_start s))) in *.
    assert (Hlast : last (rev (trim_start s)) = Some c).
    { rewrite Hp. destruct b as [|x b] using rev_ind; [done|].
      rewrite last_snoc in Hc. rewrite app_assoc, last_snoc. done. }
    rewrite last_rev in Hlast. by apply trim_start_head in Hlast.
  - rewrite last_rev in Hc. by apply trim_start_head in Hc.
Qed.

(** ** The log *)

Lemma onmessage_log st msg now w :
  let acc := currentTranscriptionRef (exec (receiveTranscriptions msg) w) in
  transcripts (exec (onmessage st msg now) w) =
    transcripts w
      ++ (if turnComplete msg
          then flushed (trim (user acc)) (trim (model acc)) else []).
Proof.
  intros acc. subst acc.
  destruct (receiveTranscriptions_spec msg w) as (c & s & H1).
  set (w1 := set_status s (set_currentTranscriptionRef c w)) in *.
  assert (Hacc : exec (receiveTranscriptions msg) w = w1)
    by (unfold exec; by rewrite H1).
  rewrite Hacc.
  destruct (turnComplete msg) eqn:Ht.
  - pose proof (completeTurn_spec msg w1 Ht) as H2.
    assert (H12 : (receiveTranscriptions msg;; completeTurn msg) w
                  = (Ok tt, snd (completeTurn msg w1))).
    { rewrite (bind_ok _ _ _ _ _ H1). by rewrite H2. }
    destruct (onmessage_transcript_frame st msg now w _ H12) as (-> & _).
    rewrite H2. reflexivity.
  - assert (H12 : (receiveTranscriptions msg;; completeTurn msg) w = (Ok tt, w1)).
    { rewrite (bind_ok _ _ _ _ _ H1). unfold completeTurn. by rewrite Ht. }
    destruct (onmessage_transcript_frame st msg now w _ H12) as (-> & _).
    by rewrite app_nil_r.
Qed.

Lemma flushed_lines u m :
  trimmed u -> trimmed m ->
  Forall (fun l => text l <> [] /\ trimmed (text l)) (flushed u m).
Proof.
  intros Hu Hm. unfold flushed. apply Forall_app. split.
  - destruct u; cbn; [constructor|]. by apply Forall_singleton.
  - destruct m; cbn; [constructor|]. by apply Forall_singleton.
Qed.

Lemma log_handle st ct ev w :
  Forall (fun l => text l <> [] /\ trimmed (text l)) (transcripts w) ->
  Forall (fun l => text l <> [] /\ trimmed (text l))
    (transcripts (exec (handle st ct ev) w)).
Proof.
  intros Hw. destruct ev; cbn [handle]; try (by destruct w).
  - rewrite onmessage_log. apply Forall_app. split; [done|].
    destruct (turnComplete msg); [|constructor].
    apply flushed_lines; apply trim_trimmed.
  - unfold exec, onaudioprocess, mbind, M_bind, mret, M_ret, get, lift,
      sendRealtimeInput, modify.
    destruct (sessionRef w); [|done].
    destruct (encodeAudioChunk inputData); by destruct w.
  - destruct (stopLive_spec st ct w) as (N & HN & _).
    unfold exec, onerror. rewrite HN. by cbn.
  - destruct (stopLive_spec st ct w) as (N & HN & _).
    unfold exec. rewrite HN. by cbn.
Qed.

(** X4. After any history, no line of the transcript log is empty and
    none starts or ends with white space. *)
Theorem log_lines_are_trimmed (stop_throws : SourceNode -> bool)
    (close_throws : nat -> bool) (evs : list Event) :
  Forall (fun l => text l <> [] /\ trimmed (text l))
    (transcripts (run stop_throws close_throws evs initial)).
Proof.
  apply run_keeps; [intros ev w; apply log_handle | constructor].
Qed.

(** ** The status *)

Lemma status_onmessage (stop_throws : SourceNode -> bool)
    (msg : ServerMsg) (now : Q) (w : World) :
  status (exec (onmessage stop_throws msg now) w) =
    if turnComplete msg
       || (interrupted msg && completes (outcome (onmessage stop_throws msg now) w))
    then listening
    else match outputTranscription msg, inputTranscription msg with
         | Some _, _ => speaking
         | None, Some _ => thinking
         | None, None => status w
         end.
Proof.
  unfold exec, outcome. rewrite onmessage_split. unfold before_interruption.
  assert (H2 : exists w2, (receiveTranscriptions msg;; completeTurn msg) w = (Ok tt, w2)
             /\ status w2 =
                  if turnComplete msg then listening
                  else match outputTranscription msg, inputTranscription msg with
                       | Some _, _ => speaking
                       | None, Some _ => thinking
                       | None, None => status w
                       end).
  { unfold receiveTranscriptions, completeTurn, mbind, M_bind, mret, M_ret,
      modify, setStatus, get.
    destruct (inputTranscription msg), (outputTranscription msg),
      (turnComplete msg); cbn;
      try destruct (truthy _ || truthy _); by eexists. }
  destruct H2 as (w2 & H2 & Hs2).
  assert (E : (receiveTranscriptions msg;; completeTurn msg;; playAudio msg now) w
              = playAudio msg now w2).
  { rewrite <- bind_assoc. by rewrite (bind_ok _ _ _ _ _ H2). }
  assert (Hint : forall w3, status w3 = status w2 ->
            status (snd (handleInterruption stop_throws msg now w3)) =
              (if turnComplete msg
                  || (interrupted msg
                      && completes (fst (handleInterruption stop_throws msg now w3)))
               then listening
               else match outputTranscription msg, inputTranscription msg with
                    | Some _, _ => speaking
                    | None, Some _ => thinking
                    | None, None => status w
                    end)).
  { intros w3 H3. destruct (interrupted msg) eqn:Ei.
    - destruct (handleInterruption_spec stop_throws msg now w3 Ei) as (N & -> & _).
      cbn. by rewrite orb_true_r.
    - rewrite handleInterruption_skip by done. cbn. rewrite orb_false_r.
      rewrite H3, Hs2. by destruct (turnComplete msg). }
  destruct (playAudio_cases msg now w2) as [[e He] | [He | [b He]]];
    rewrite He in E.
  - rewrite (bind_throw _ _ _ _ _ E). cbn. rewrite andb_false_r, orb_false_r.
    rewrite Hs2. by destruct (turnComplete msg).
  - rewrite (bind_ok _ _ _ _ _ E). by apply Hint.
  - rewrite (bind_ok _ _ _ _ _ E). by apply Hint.
Qed.

(** ** Turns that span messages *)

Lemma receiveTranscriptions_acc msg w :
  currentTranscriptionRef (exec (receiveTranscriptions msg) w) =
    mkTranscription
      (user (currentTranscriptionRef w) ++ delta (inputTranscription msg))
      (model (currentTranscriptionRef w) ++ delta (outputTranscription msg)).
Proof.
  unfold exec, receiveTranscriptions, delta, mbind, M_bind, mret, M_ret, modify,
    setStatus.
  destruct (inputTranscription msg), (outputTranscription msg); cbn;
    rewrite ?app_nil_r; try done; by destruct (currentTranscriptionRef w).
Qed.

Lemma onmessage_acc st msg now w :
  turnComplete msg = false ->
  let w' := exec (onmessage st msg now) w in
  transcripts w' = transcripts w
  /\ currentTranscriptionRef w' =
       mkTranscription
         (user (currentTranscriptionRef w) ++ delta (inputTranscription msg))
         (model (currentTranscriptionRef w) ++ delta (outputTranscription msg)).
Proof.
  intros Ht w'. subst w'. split.
  - rewrite onmessage_log, Ht. apply app_nil_r.
  - destruct (receiveTranscriptions_spec msg w) as (c & s & H1).
    assert (H12 : (receiveTranscriptions msg;; completeTurn msg) w
                  = (Ok tt, exec (receiveTranscriptions msg) w)).
    { rewrite (bind_ok _ _ _ _ _ H1). unfold completeTurn, exec.
      by rewrite Ht, H1. }
    destruct (onmessage_transcript_frame st msg now w _ H12) as (_ & -> & _).
    apply receiveTranscriptions_acc.
Qed.

Lemma onmessages_acc st evs w :
  Forall (fun ev => turnComplete (fst ev) = false) evs ->
  let w' := onmessages st evs w in
  transcripts w' = transcripts w
  /\ currentTranscriptionRef w' =
       mkTranscription
         (user (currentTranscriptionRef w)
            ++ concat (map (fun ev => delta (inputTranscription (fst ev))) evs))
         (model (currentTranscriptionRef w)
            ++ concat (map (fun ev => delta (outputTranscription (fst ev))) evs)).
Proof.
  intros H. revert w. induction H as [|[msg now] evs Hm _ IH]; intros w.
  - cbn. rewrite !app_nil_r. split; [done|]. by destruct (currentTranscriptionRef w).
  - cbn [onmessages]. cbn in Hm.
    destruct (onmessage_acc st msg now w Hm) as [Ht Hc].
    destruct (IH (exec (onmessage st msg now) w)) as [Ht' Hc'].
    cbv zeta. rewrite Ht', Hc', Ht, Hc. cbn. by rewrite <- !app_assoc.
Qed.

(** X5. A turn may span messages. Messages without the turn-complete
    marker leave the log as it is, whatever else they carry and whether or
    not their audio decodes; the message with the marker then logs what
    the accumulators held before, followed by every delta received since,
    that message's included, user and model apart, each trimmed. *)
Theorem turn_spans_messages (stop_throws : SourceNode -> bool)
    (evs : list (ServerMsg * Q)) (last : ServerMsg) (now : Q) (w : World) :
  Forall (fun ev => turnComplete (fst ev) = false) evs ->
  turnComplete last = true ->
  let said := concat (map (fun ev => delta (inputTranscription (fst ev))) evs)
              ++ delta (inputTranscription last) in
  let heard := concat (map (fun ev => delta (outputTranscription (fst ev))) evs)
               ++ delta (outputTranscription last) in
  let before := onmessages stop_throws evs w in
  let w' := exec (onmessage stop_throws last now) before in
  transcripts before = transcripts w
  /\ transcripts w' =
       transcripts w
         ++ flushed (trim (user (currentTranscriptionRef w) ++ said))
              (trim (model (currentTranscriptionRef w) ++ heard)).
Proof.
  intros Hevs Hlast said heard before w'.
  destruct (onmessages_acc stop_throws evs w Hevs) as [Ht Hc].
  fold before in Ht, Hc. split; [done|]. subst w'.
  rewrite onmessage_log, Hlast, receiveTranscriptions_acc, Ht, Hc. cbn.
  by rewrite <- !app_assoc.
Qed.

(** ** Sources that end *)

Lemma stop_loop_outside st l w s :
  s ∉ l -> nodes (snd (forEach l (try_stop st) w)) !! s = nodes w !! s.
Proof.
  revert w. induction l as [|x l IH]; intros w Hs; [done|].
  apply not_elem_of_cons in Hs as [Hne Hs]. cbn [forEach].
  rewrite (bind_ok _ _ _ _ _ (try_stop_spec st x w)). rewrite IH by done.
  destruct (nodes w !! x) as [n|]; [|done].
  destruct (st n); [done|]. cbn. by rewrite list_lookup_insert_ne.
Qed.

Lemma stopEach_nodes st w :
  stopEach st w = forEach (audioSourcesRef w) (try_stop st) w.
Proof. unfold stopEach. by rewrite (bind_ok get _ w w w eq_refl). Qed.

Lemma stopLive_nodes st ct w :
  nodes (exec (stopLive st ct) w) = nodes (snd (stopEach st w)).
Proof.
  destruct (stopEach_spec st w) as (N & HN & _).
  destruct (stopLive_spec st ct w) as (N' & HN' & _).
  unfold exec. rewrite HN', HN. cbn.
  unfold stopLive in HN'. rewrite (bind_ok _ _ _ _ _ HN) in HN'.
  unfold mbind, M_bind, mret, M_ret, modify, get, setIsLive, setStatus,
    try_catch, session_close in HN'.
  destruct w as [? ? ? [sess|] ? ? ? ? ? ? ? ?]; cbn in HN';
    [destruct (ct sess)|]; by inversion HN'.
Qed.

Lemma handleInterruption_nodes st msg now w :
  nodes (exec (handleInterruption st msg now) w) =
    if interrupted msg then nodes (snd (stopEach st w)) else nodes w.
Proof.
  unfold exec. destruct (interrupted msg) eqn:Ei.
  - destruct (stopEach_spec st w) as (N & HN & _).
    unfold handleInterruption. rewrite Ei, (bind_ok _ _ _ _ _ HN), HN. done.
  - by rewrite handleInterruption_skip.
Qed.

(** X6. When a source ends it leaves the active-source set, and no other
    source does; a [stopLive] or an interruption that comes later leaves
    its node as it is. *)
Theorem ended_source_is_left_alone (stop_throws : SourceNode -> bool)
    (close_throws : nat -> bool) (s : nat) (w : World) (msg : ServerMsg) (now : Q) :
  let w1 := exec (onended s) w in
  (s ∉ audioSourcesRef w1)
  /\ (forall x, x <> s -> (x ∈ audioSourcesRef w1 <-> x ∈ audioSourcesRef w))
  /\ nodes (exec (stopLive stop_throws close_throws) w1) !! s = nodes w !! s
  /\ nodes (exec (handleInterruption stop_throws msg now) w1) !! s = nodes w !! s.
Proof.
  intros w1.
  assert (Hset : audioSourcesRef w1 = set_delete s (audioSourcesRef w)) by done.
  assert (Hnodes : nodes w1 = nodes w) by done.
  assert (Hout : s ∉ audioSourcesRef w1).
  { rewrite Hset. intros H. by apply set_delete_spec in H as [_ H]. }
  split; [done|]. split; [|split].
  - intros x Hx. rewrite Hset, set_delete_spec.
    split; [by intros [? _] | by intros ?; split].
  - rewrite stopLive_nodes, stopEach_nodes, stop_loop_outside by done. by rewrite Hnodes.
  - rewrite handleInterruption_nodes. destruct (interrupted msg); [|by rewrite Hnodes].
    rewrite stopEach_nodes, stop_loop_outside by done. by rewrite Hnodes.
Qed.

(** ** Messages that fail *)

Lemma playAudio_inline msg now w :
  playAudio msg now w =
    match inline_audio msg with
    | Throw e => (Throw e, w)
    | Ok None => (Ok tt, w)
    | Ok (Some b) => scheduleBuffer b now w
    end.
Proof.
  unfold playAudio, inline_audio, mbind, M_bind, lift.
  destruct (audioData msg) as [d|]; [|done].
  destruct (truthy d); [|done].
  destruct (decodeBase64Audio d) as [bytes|e]; [|done]. cbn.
  by destruct (decodeAudioToBuffer bytes).
Qed.

Lemma before_playback msg w :
  exists w2, (receiveTranscriptions msg;; completeTurn msg) w = (Ok tt, w2)
             /\ same_playback w2 w.
Proof.
  destruct (receiveTranscriptions_spec msg w) as (c & s & H1).
  destruct (completeTurn_playback msg (set_status s (set_currentTranscriptionRef c w)))
    as (w2 & H2 & Hw2).
  exists w2. split; [by rewrite (bind_ok _ _ _ _ _ H1)|].
  destruct Hw2 as (? & ? & ?). by destruct w.
Qed.

Lemma onmessage_outcome st msg now w :
  outcome (onmessage st msg now) w =
    match inline_audio msg with
    | Throw e => Throw e
    | Ok _ => Ok tt
    end.
Proof.
  unfold outcome. rewrite onmessage_split. unfold before_interruption.
  destruct (before_playback msg w) as (w2 & H2 & _).
  assert (E : (receiveTranscriptions msg;; completeTurn msg;; playAudio msg now) w
              = playAudio msg now w2).
  { rewrite <- bind_assoc. by rewrite (bind_ok _ _ _ _ _ H2). }
  rewrite playAudio_inline in E.
  assert (Hint : forall w3, fst (handleInterruption st msg now w3) = Ok tt).
  { intros w3. destruct (interrupted msg) eqn:Ei.
    - by destruct (handleInterruption_spec st msg now w3 Ei) as (N & -> & _).
    - by rewrite handleInterruption_skip. }
  destruct (inline_audio msg) as [[b|]|e].
  - rewrite scheduleBuffer_spec in E. by rewrite (bind_ok _ _ _ _ _ E).
  - by rewrite (bind_ok _ _ _ _ _ E).
  - by rewrite (bind_throw _ _ _ _ _ E).
Qed.

(** X8. The message callback throws only when the inline audio does not
    decode, with the exception of the decoding and with the playback
    state (nodes, active sources, nextStartTime) as it was. Otherwise it
    completes: with audio it creates exactly one node, which holds the
    decoded buffer; without audio it creates none. *)
Theorem message_fails_only_on_bad_audio (stop_throws : SourceNode -> bool)
    (msg : ServerMsg) (now : Q) (w : World) :
  let w' := exec (onmessage stop_throws msg now) w in
  match inline_audio msg with
  | Throw e =>
      outcome (onmessage stop_throws msg now) w = Throw e
      /\ same_playback w' w
  | Ok None =>
      outcome (onmessage stop_throws msg now) w = Ok tt
      /\ length (nodes w') = length (nodes w)
  | Ok (Some b) =>
      outcome (onmessage stop_throws msg now) w = Ok tt
      /\ length (nodes w') = S (length (nodes w))
      /\ exists n, nodes w' !! length (nodes w) = Some n /\ buffer n = b
  end.
Proof.
  intros w'. subst w'. unfold exec, outcome. rewrite onmessage_split.
  unfold before_interruption.
  destruct (before_playback msg w) as (w2 & H2 & Hn & Hq & Hs).
  assert (E : (receiveTranscriptions msg;; completeTurn msg;; playAudio msg now) w
              = playAudio msg now w2).
  { rewrite <- bind_assoc. by rewrite (bind_ok _ _ _ _ _ H2). }
  rewrite playAudio_inline in E.
  assert (Hint : forall w3,
            fst (handleInterruption stop_throws msg now w3) = Ok tt
            /\ length (nodes (snd (handleInterruption stop_throws msg now w3)))
               = length (nodes w3)
            /\ forall i n, nodes w3 !! i = Some n ->
                 exists n', nodes (snd (handleInterruption stop_throws msg now w3)) !! i
                              = Some n' /\ buffer n' = buffer n).
  { intros w3. destruct (interrupted msg) eqn:Ei.
    - destruct (handleInterruption_spec stop_throws msg now w3 Ei)
        as (N & -> & Hlen & Hall).
      cbn. split; [done|]. split; [done|]. intros i n Hi.
      destruct (Hall i n Hi) as [[H | H] _]; eauto.
    - rewrite handleInterruption_skip by done. cbn. eauto. }
  destruct (inline_audio msg) as [[b|]|e].
  - rewrite scheduleBuffer_spec in E. rewrite (bind_ok _ _ _ _ _ E).
    destruct (Hint (scheduled b now w2)) as (Ho & Hl & Hb).
    split; [done|]. rewrite Hl. cbn. rewrite length_app, Hn. cbn.
    split; [lia|].
    destruct (Hb (length (nodes w)) (mkSource b
                (Some (Qmax now (nextStartTimeRef w2))) false false))
      as (n' & Hn' & Hbuf).
    { cbn. rewrite Hn. by apply list_lookup_middle. }
    by exists n'.
  - rewrite (bind_ok _ _ _ _ _ E). destruct (Hint w2) as (Ho & Hl & _).
    split; [done|]. by rewrite Hl, Hn.
  - rewrite (bind_throw _ _ _ _ _ E). by cbn.
Qed.

(** X9. The status after a message: listening when the turn is complete,
    or when the message is an interruption and its audio, if any, decodes;
    otherwise speaking when it has a model transcription, thinking when it
    has only a user transcription, and unchanged when it has neither. *)
Theorem status_after_message (stop_throws : SourceNode -> bool)
    (msg : ServerMsg) (now : Q) (w : World) :
  status (exec (onmessage stop_throws msg now) w) =
    if turnComplete msg || (interrupted msg && completes (inline_audio msg))
    then listening
    else match outputTranscription msg, inputTranscription msg with
         | Some _, _ => speaking
         | None, Some _ => thinking
         | None, None => status w
         end.
Proof.
  rewrite status_onmessage, onmessage_outcome.
  by destruct (inline_audio msg).
Qed.

(** ** The playback scheduler, message by message *)

Lemma onmessages_app st l1 l2 w :
  onmessages st (l1 ++ l2) w = onmessages st l2 (onmessages st l1 w).
Proof.
  revert w. induction l1 as [|[msg now] l1 IH]; intros w; [done|]. cbn. apply IH.
Qed.

(** The node that a message with audio creates, interruption or not. *)
Lemma onmessage_schedules st msg now w b :
  inline_audio msg = Ok (Some b) ->
  exists n,
    nodes (exec (onmessage st msg now) w) !! length (nodes w) = Some n
    /\ buffer n = b
    /\ startedAt n = Some (Qmax now (nextStartTimeRef w)).
Proof.
  intros Ha. unfold exec. rewrite onmessage_split. unfold before_interruption.
  destruct (before_playback msg w) as (w2 & H2 & Hn & Hq & Hs).
  assert (E : (receiveTranscriptions msg;; completeTurn msg;; playAudio msg now) w
              = playAudio msg now w2).
  { rewrite <- bind_assoc. by rewrite (bind_ok _ _ _ _ _ H2). }
  rewrite playAudio_inline, Ha, scheduleBuffer_spec in E.
  rewrite (bind_ok _ _ _ _ _ E).
  assert (H3 : nodes (scheduled b now w2) !! length (nodes w)
               = Some (mkSource b (Some (Qmax now (nextStartTimeRef w)))
                         false false)).
  { cbn. rewrite Hn, Hq. by apply list_lookup_middle. }
  destruct (interrupted msg) eqn:Ei.
  - destruct (handleInterruption_spec st msg now (scheduled b now w2) Ei)
      as (N & -> & _ & Hall).
    cbn [snd nodes set_status set_nextStartTimeRef set_audioSourcesRef set_nodes].
    destruct (Hall _ _ H3) as [[H | H] _]; rewrite H; by eexists.
  - rewrite handleInterruption_skip by done. cbn [snd]. rewrite H3. by eexists.
Qed.

(** Messages leave the buffer and the start time of a node as they are. *)
Lemma onmessages_keep_node st evs w i n :
  nodes w !! i = Some n ->
  exists n', nodes (onmessages st evs w) !! i = Some n'
             /\ buffer n' = buffer n /\ startedAt n' = startedAt n.
Proof.
  revert w n. induction evs as [|[msg now] evs IH]; intros w n Hi; [by exists n|].
  cbn [onmessages].
  assert (H : exists n', nodes (exec (onmessage st msg now) w) !! i = Some n'
                         /\ buffer n' = buffer n /\ startedAt n' = startedAt n).
  { apply onmessage_keeps; [| | |by exists n].
    - intros w0 s0 c t (n' & H & ?). exists n'. split; [|done]. by destruct w0.
    - intros w0 b (n' & H & ?). exists n'. split; [|done]. cbn.
      by apply lookup_app_l_Some.
    - intros w0 N (n' & H & Hb & Hst) _ Hall. cbn.
      destruct (Hall i n' H) as [H' | H']; eexists; (split; [exact H'|]);
        by rewrite <- Hb, <- Hst. }
  destruct H as (n1 & H1 & Hb1 & Hs1).
  destruct (IH _ _ H1) as (n' & H' & Hb & Hst).
  exists n'. split; [done|]. by rewrite Hb, Hst.
Qed.

(** Without the interruption marker, a message does to the playback side
    what the scheduling step does with the buffer its audio decodes to,
    and nothing when there is no such buffer. *)
Lemma onmessage_playback st msg now w w0 :
  interrupted msg = false -> same_playback w w0 ->
  same_playback (exec (onmessage st msg now) w)
    (match inline_audio msg with
     | Ok (Some b) => scheduled b now w0
     | _ => w0
     end).
Proof.
  intros Hi Hw. unfold exec. rewrite onmessage_split. unfold before_interruption.
  destruct (before_playback msg w) as (w2 & H2 & Hw2).
  assert (Hw20 : same_playback w2 w0).
  { destruct Hw2 as (? & ? & ?), Hw as (? & ? & ?). unfold same_playback.
    split; [congruence|]. split; congruence. }
  assert (E : (receiveTranscriptions msg;; completeTurn msg;; playAudio msg now) w
              = playAudio msg now w2).
  { rewrite <- bind_assoc. by rewrite (bind_ok _ _ _ _ _ H2). }
  rewrite playAudio_inline in E.
  destruct (inline_audio msg) as [[b|]|e].
  - rewrite scheduleBuffer_spec in E.
    rewrite (bind_ok _ _ _ _ _ E), handleInterruption_skip by done.
    by apply scheduled_playback.
  - by rewrite (bind_ok _ _ _ _ _ E), handleInterruption_skip by done.
  - by rewrite (bind_throw _ _ _ _ _ E).
Qed.

Lemma decoded_cons msg now evs :
  decoded ((msg, now) :: evs) =
    match inline_audio msg with
    | Ok (Some b) => (b, now) :: decoded evs
    | _ => decoded evs
    end.
Proof. unfold decoded. cbn. by destruct (inline_audio msg) as [[b|]|e]. Qed.

Lemma onmessages_playback st evs w w0 :
  Forall (fun ev => interrupted (fst ev) = false) evs -> same_playback w w0 ->
  same_playback (onmessages st evs w) (scheduleAll (decoded evs) w0).
Proof.
  intros H. revert w w0.
  induction H as [|[msg now] evs Hi _ IH]; intros w w0 Hw; [done|].
  cbn [onmessages]. pose proof (onmessage_playback st msg now w w0 Hi Hw) as H1.
  rewrite decoded_cons. destruct (inline_audio msg) as [[b|]|e].
  - rewrite scheduleAll_cons. by apply IH.
  - by apply IH.
  - by apply IH.
Qed.


(** X7. Playback is gapless when the next buffer arrives in time: after a
    message whose audio decodes, and any messages that schedule nothing,
    a message whose audio decodes and whose clock reading is not past the
    end the callback stored for the first buffer has its buffer started
    exactly at that end, provided no message from the first on carries an
    interruption marker. *)
Theorem queued_buffers_play_gapless (stop_throws : SourceNode -> bool)
    (w : World) (pre mid post : list (ServerMsg * Q))
    (msg msg' : ServerMsg) (now now' : Q) (b b' : AudioBuffer) :
  inline_audio msg = Ok (Some b) ->
  inline_audio msg' = Ok (Some b') ->
  Forall (fun ev => interrupted (fst ev) = false) ((msg, now) :: mid) ->
  decoded mid = [] ->
  let before := onmessages stop_throws pre w in
  let final :=
    onmessages stop_throws (pre ++ (msg, now) :: mid ++ (msg', now') :: post) w in
  let queue_end := fadd (Qmax now (nextStartTimeRef before)) (duration b) in
  (now' <= queue_end)%Q ->
  exists t, startOf final (S (length (nodes before))) = Some t
            /\ (t == queue_end)%Q.
Proof.
  intros Ha Ha' Hall Hmid before final queue_end Hnow.
  apply Forall_cons in Hall as [Hi Hrest]. cbn [fst] in Hi.
  assert (Hfinal : final
            = onmessages stop_throws post
                (exec (onmessage stop_throws msg' now')
                   (onmessages stop_throws mid
                      (exec (onmessage stop_throws msg now) before)))).
  { subst final before.
    rewrite onmessages_app. cbn [onmessages]. rewrite onmessages_app. done. }
  pose proof (onmessage_playback stop_throws msg now before before Hi) as H1.
  rewrite Ha in H1. specialize (H1 ltac:(done)).
  pose proof (onmessages_playback stop_throws mid _ _ Hrest H1) as H2.
  rewrite Hmid in H2. cbn [scheduleAll] in H2. destruct H2 as (Hn & Hq & _).
  set (w2 := onmessages stop_throws mid
                (exec (onmessage stop_throws msg now) before)) in *.
  destruct (onmessage_schedules stop_throws msg' now' w2 b' Ha')
    as (n & Hnode & _ & Hst).
  destruct (onmessages_keep_node stop_throws post _ _ _ Hnode)
    as (n' & Hn' & _ & Hst').
  rewrite Hn in Hn'. rewrite Hq in Hst.
  exists (Qmax now' queue_end). split.
  - unfold startOf. rewrite Hfinal.
    replace (S (length (nodes before)))
      with (length (nodes (scheduled b now before)))
      by (cbn; rewrite length_app; cbn; lia).
    rewrite Hn'. by rewrite Hst', Hst.
  - by apply Q.max_r.
Qed.

End VoiceFacts.

(** ** The codec, seen from its other callers *)

(** X10. [decodeBase64Audio] inverts [btoa]: the base64 of any sequence
    of octets decodes to that sequence. *)
Theorem decodeBase64Audio_btoa (bs : list Z) :
  Forall octet bs -> res_bind (btoa bs) decodeBase64Audio = Ok bs.
Proof.
  intros H. rewrite btoa_octets by done. cbn [res_bind]. unfold decodeBase64Audio.
  rewrite atob_base64_encode by done. cbn [res_bind]. by rewrite toUint8_octets.
Qed.

Lemma decodeBase64Audio_btoa_witness :
  res_bind (btoa [0; 255; 16; 128]) decodeBase64Audio = Ok [0; 255; 16; 128].
Proof.
  apply decodeBase64Audio_btoa.
  repeat (apply List.Forall_cons; [unfold octet; lia|]). apply List.Forall_nil.
Defined.

Lemma int16s_of_bytes_length data :
  length (int16s_of_bytes data) = (length data / 2)%nat.
Proof.
  assert (H : forall l, length (int16s_of_bytes l) = (length l / 2)%nat
                        /\ forall x, length (int16s_of_bytes (x :: l))
                                     = (S (length l) / 2)%nat).
  { induction l as [|y l [IH1 IH2]]; [by split|]. split; [apply IH2|].
    intros x. cbn [int16s_of_bytes length]. rewrite IH1.
    replace (S (S (length l))) with (length l + 1 * 2)%nat by lia.
    rewrite Nat.div_add by done. lia. }
  apply H.
Qed.

Lemma int16s_of_bytes_int16 data : Forall int16 (int16s_of_bytes data).
Proof.
  assert (H : forall l, Forall int16 (int16s_of_bytes l)
                        /\ forall x, Forall int16 (int16s_of_bytes (x :: l))).
  { induction l as [|y l [IH1 IH2]]; [split; [constructor | intros; constructor]|].
    split; [apply IH2|]. intros x. cbn [int16s_of_bytes].
    constructor; [apply wrap16_range | exact IH1]. }
  apply H.
Qed.

Lemma int16_sample v : int16 v -> (-1 <= inject_Z v / 32768 < 1)%Q.
Proof.
  unfold int16. intros [Hlo Hhi].
  assert (E : (inject_Z v / 32768 == inject_Z v * (1 # 32768))%Q) by reflexivity.
  rewrite E. rewrite Zle_Qle in Hlo, Hhi.
  change (inject_Z (-32768)) with (-32768)%Q in Hlo.
  change (inject_Z 32767) with 32767%Q in Hhi. lra.
Qed.

(** X11. [decodeAudioToBuffer] on the array that [decodeBase64Audio]
    returns, which is how the message callback and [generateSpeech] call
    it: an odd number of bytes is a RangeError (of the Int16Array view),
    no byte at all is a NotSupportedError (of [createBuffer] with zero
    frames), and an even, positive number gives a buffer of half as many
    frames at 24000 Hz whose samples are all in [-1, 1). *)
Theorem decodeAudioToBuffer_cases (base64 : jsstring) (data : list Z) :
  decodeBase64Audio base64 = Ok data ->
  let r := res_bind (decodeBase64Audio base64) decodeAudioToBuffer in
  (Nat.even (length data) = false -> r = Throw RangeError)
  /\ (data = [] -> r = Throw NotSupportedError)
  /\ (Nat.even (length data) = true -> data <> [] ->
      exists b,
        r = Ok b
        /\ length (channelData b) = (length data / 2)%nat
        /\ sampleRate b = 24000%positive
        /\ Forall (fun y => (-1 <= y < 1)%Q) (channelData b)).
Proof.
  intros Hd r. subst r. rewrite Hd. cbn [res_bind]. clear Hd.
  unfold decodeAudioToBuffer, asInt16Array. split; [|split].
  - by intros ->.
  - by intros ->.
  - intros He Hne. rewrite He. cbn [res_bind]. rewrite int16s_of_bytes_length.
    destruct data as [|a [|b data]]; [done|done|]. clear He.
    replace (length (a :: b :: data)) with (length data + 1 * 2)%nat by (cbn; lia).
    rewrite Nat.div_add by done.
    replace (length data / 2 + 1 =? 0)%nat with false
      by (symmetry; apply Nat.eqb_neq; lia).
    eexists. split; [reflexivity|]. cbn [channelData sampleRate].
    split; [|split; [done|]].
    + rewrite length_map, int16s_of_bytes_length.
      replace (length (a :: b :: data)) with (length data + 1 * 2)%nat by (cbn; lia).
      by rewrite Nat.div_add.
    + apply Forall_map, Forall_forall. intros v Hv. apply int16_sample.
      eapply Forall_forall; [apply int16s_of_bytes_int16 | exact Hv].
Qed.

(** The payload [chunk] holds six bytes and decodes to three frames. *)
Lemma decodeAudioToBuffer_cases_witness :
  decodeBase64Audio chunk = Ok [255; 127; 0; 0; 0; 128]
  /\ exists b,
       res_bind (decodeBase64Audio chunk) decodeAudioToBuffer = Ok b
       /\ length (channelData b) = 3%nat
       /\ sampleRate b = 24000%positive
       /\ Forall (fun y => (-1 <= y < 1)%Q) (channelData b).
Proof.
  assert (Hd : decodeBase64Audio chunk = Ok [255; 127; 0; 0; 0; 128])
    by (vm_compute; reflexivity).
  split; [exact Hd|].
  destruct (decodeAudioToBuffer_cases chunk _ Hd) as (_ & _ & H).
  apply H; [reflexivity | discriminate].
Defined.

(** ** Encoding again what was decoded *)

Lemma trunc_int z : trunc (inject_Z z) = z.
Proof.
  destruct (trunc_mono_int (inject_Z z) z) as [H1 H2].
  specialize (H1 ltac:(lra)). specialize (H2 ltac:(lra)). lia.
Qed.

Lemma reencoded_sample v :
  int16 v -> toInt16 (scale (clamp (inject_Z v / 32768))) = reencoded v.
Proof.
  intros Hv. rewrite toInt16_clamped.
  pose proof (int16_sample v Hv) as Hy.
  set (y := (inject_Z v / 32768)%Q) in *.
  assert (Ey : (y == inject_Z v * (1 # 32768))%Q) by reflexivity.
  clearbody y.
  assert (Hu : unit_sample y) by (unfold unit_sample; lra).
  pose proof (clamp_unit y Hu) as Ec.
  assert (Es : (scale (clamp y) == scale y)%Q).
  { rewrite !scale_dec. destruct (Qlt_le_dec (clamp y) 0), (Qlt_le_dec y 0); lra. }
  rewrite (trunc_comp _ _ Es), scale_dec. unfold reencoded. clear Es Ec Hu.
  destruct (Qlt_le_dec y 0) as [Hneg | Hpos].
  - assert (v < 0) by (rewrite Zlt_Qlt; change (inject_Z 0) with 0%Q; lra).
    replace (0 <? v) with false by lia.
    rewrite (trunc_comp _ (inject_Z v)) by lra. apply trunc_int.
  - assert (0 <= v) by (rewrite Zle_Qle; change (inject_Z 0) with 0%Q; lra).
    destruct (Z.eq_dec v 0) as [-> | Hnz].
    + change (inject_Z 0) with 0%Q in Ey.
      rewrite (trunc_comp _ (inject_Z 0)) by (change (inject_Z 0) with 0%Q; lra).
      apply trunc_int.
    + replace (0 <? v) with true by lia.
      assert (Hv1 : (1 <= inject_Z v)%Q).
      { change 1%Q with (inject_Z 1). rewrite <- Zle_Qle. lia. }
      destruct Hv as [_ Hhi]. rewrite Zle_Qle in Hhi.
      change (inject_Z 32767) with 32767%Q in Hhi.
      destruct (trunc_mono_int (y * 32767)%Q (v - 1)) as [H1 _].
      destruct (trunc_nonneg (y * 32767)%Q ltac:(lra)) as [H2 _].
      assert (v - 1 <= trunc (y * 32767)%Q).
      { apply H1. unfold Z.sub. rewrite inject_Z_plus.
        rewrite inject_Z_opp. change (inject_Z 1) with 1%Q. lra. }
      assert (trunc (y * 32767)%Q < v).
      { rewrite Zlt_Qlt. lra. }
      lia.
Qed.

(** X12. Decoding and encoding again is not the identity on PCM: a
    received stream of 16-bit integers, decoded to a buffer and encoded
    as the capture side encodes, comes back with every positive integer
    lowered by one and every other integer unchanged. *)
Theorem reencoding_lowers_positive_samples (vs : list Z) :
  vs <> [] -> Forall int16 vs ->
  exists b,
    decodeAudioToBuffer (bytes_of_int16s vs) = Ok b
    /\ quantize (channelData b) = map reencoded vs
    /\ res_bind (encodeAudioChunk (channelData b)) decodeBase64Audio
       = Ok (bytes_of_int16s (map reencoded vs)).
Proof.
  intros Hne Hvs.
  assert (Hb : decodeAudioToBuffer (bytes_of_int16s vs)
               = Ok (mkAudioBuffer (map (fun v => (inject_Z v / 32768)%Q) vs) 24000)).
  { unfold decodeAudioToBuffer, asInt16Array. rewrite bytes_of_int16s_length.
    replace (Nat.even (2 * length vs)) with true
      by (symmetry; apply Nat.even_spec; by exists (length vs)).
    cbn [res_bind]. rewrite int16s_of_bytes_of_int16s by done.
    destruct vs; [done|]. reflexivity. }
  eexists. split; [exact Hb|]. cbn [channelData].
  assert (Hq : quantize (map (fun v => (inject_Z v / 32768)%Q) vs) = map reencoded vs).
  { unfold quantize. rewrite map_map. clear Hne Hb.
    induction Hvs as [|v vs Hv _ IH]; [done|]. cbn [map]. cbv zeta.
    by rewrite reencoded_sample, IH. }
  split; [exact Hq|].
  rewrite encodeAudioChunk_ok, Hq. cbn [res_bind]. unfold decodeBase64Audio.
  rewrite atob_base64_encode by apply bytes_of_int16s_octets. cbn [res_bind].
  by rewrite toUint8_octets by apply bytes_of_int16s_octets.
Qed.

Lemma reencoding_lowers_positive_samples_witness :
  exists b,
    decodeAudioToBuffer (bytes_of_int16s [32767; 1; 0; -1; -32768]) = Ok b
    /\ quantize (channelData b) = [32766; 0; 0; -1; -32768]
    /\ res_bind (encodeAudioChunk (channelData b)) decodeBase64Audio
       = Ok (bytes_of_int16s [32766; 0; 0; -1; -32768]).
Proof.
  apply (reencoding_lowers_positive_samples [32767; 1; 0; -1; -32768]); [done|].
  repeat (apply List.Forall_cons; [unfold int16; lia|]). apply List.Forall_nil.
Defined.

(** ** Order and saturation *)

Lemma trunc_mono q q' : (q <= q')%Q -> trunc q <= trunc q'.
Proof.
  intros H. destruct (Qlt_le_dec q 0) as [Hq | Hq].
  - apply (trunc_mono_int q (trunc q')).
    destruct (Qlt_le_dec q' 0) as [Hq' | Hq'].
    + destruct (trunc_neg q' Hq'). lra.
    + assert (0 <= trunc q').
      { apply (trunc_mono_int q' 0). by change (inject_Z 0) with 0%Q. }
      rewrite Zle_Qle in H0. change (inject_Z 0) with 0%Q in H0. lra.
  - apply (trunc_mono_int q' (trunc q)).
    destruct (trunc_nonneg q Hq). lra.
Qed.

Lemma sample_mono x y :
  (x <= y)%Q -> toInt16 (scale (clamp x)) <= toInt16 (scale (clamp y)).
Proof.
  intros H. rewrite !toInt16_clamped. apply trunc_mono.
  assert (Hc : (clamp x <= clamp y)%Q).
  { unfold clamp. apply Q.max_le_compat_l, Q.min_le_compat_l, H. }
  pose proof (clamp_range x) as [? ?]. pose proof (clamp_range y) as [? ?].
  rewrite !scale_dec.
  destruct (Qlt_le_dec (clamp x) 0), (Qlt_le_dec (clamp y) 0); lra.
Qed.

(** X13. The quantizer keeps order and saturates: samples that are
    pointwise smaller are stored as integers that are pointwise smaller
    or equal, every sample of 1 or more is stored as 32767 and every
    sample of -1 or less as -32768. *)
Theorem quantize_is_monotone_and_saturates (xs ys : list Q) :
  Forall2 Qle xs ys ->
  Forall2 Z.le (quantize xs) (quantize ys)
  /\ (Forall (fun y => (1 <= y)%Q) ys -> Forall (eq 32767) (quantize ys))
  /\ (Forall (fun x => (x <= -1)%Q) xs -> Forall (eq (-32768)) (quantize xs)).
Proof.
  intros H. unfold quantize. split; [|split].
  - induction H as [|x y xs ys Hxy _ IH]; constructor; [|exact IH].
    cbv zeta. by apply sample_mono.
  - intros Hy. apply Forall_map, Forall_forall. intros y Hin. cbv zeta.
    assert (1 <= y)%Q by exact (proj1 (Forall_forall _ _) Hy y Hin).
    rewrite toInt16_clamped. symmetry. rewrite (trunc_comp _ 32767%Q); [done|].
    assert (E : (clamp y == 1)%Q).
    { unfold clamp. rewrite Q.min_l by lra. apply Q.max_r. lra. }
    rewrite scale_dec. destruct (Qlt_le_dec (clamp y) 0); lra.
  - intros Hx. apply Forall_map, Forall_forall. intros x Hin. cbv zeta.
    assert (x <= -1)%Q by exact (proj1 (Forall_forall _ _) Hx x Hin).
    rewrite toInt16_clamped. symmetry. rewrite (trunc_comp _ (-32768)%Q); [done|].
    assert (E : (clamp x == -1)%Q).
    { unfold clamp. rewrite Q.min_r by lra. apply Q.max_l. lra. }
    rewrite scale_dec. destruct (Qlt_le_dec (clamp x) 0); lra.
Qed.

Lemma quantize_is_monotone_and_saturates_witness :
  Forall2 Z.le (quantize [-2; -1 # 3; 1 # 4]%Q) (quantize [-1; 0; 3]%Q)
  /\ (Forall (fun y => (1 <= y)%Q) [1; 5 # 2]%Q ->
      Forall (eq 32767) (quantize [1; 5 # 2]%Q)).
Proof.
  split.
  - apply (quantize_is_monotone_and_saturates [-2; -1 # 3; 1 # 4]%Q [-1; 0; 3]%Q).
    repeat (constructor; [unfold Qle; cbn; lia|]). constructor.
  - apply (quantize_is_monotone_and_saturates [0; 0]%Q [1; 5 # 2]%Q).
    repeat (constructor; [unfold Qle; cbn; lia|]). constructor.
Defined.

(** ** The size of a chunk *)

Lemma base64_encode_length bs :
  length (base64_encode bs) = (4 * ((length bs + 2) / 3))%nat.
Proof.
  unfold base64_encode. rewrite length_app, length_map.
  induction bs as [|a|a b|a b c l IH] using list_ind3; try reflexivity.
  assert (Hp : padding (length (a :: b :: c :: l)) = padding (length l)).
  { unfold padding. cbn [length].
    replace (S (S (S (length l)))) with (length l + 1 * 3)%nat by lia.
    by rewrite Nat.Div0.mod_add. }
  rewrite Hp. cbn [sextets length].
  replace (S (S (S (length l))) + 2)%nat with (length l + 2 + 1 * 3)%nat by lia.
  rewrite Nat.div_add by done. lia.
Qed.

(** X14. The encoding of [n] samples is a string of [4 * ceil(2n / 3)]
    characters, and it decodes to [2n] bytes. *)
Theorem chunk_size (x : list Q) :
  exists s bytes,
    encodeAudioChunk x = Ok s
    /\ length s = (4 * ((2 * length x + 2) / 3))%nat
    /\ decodeBase64Audio s = Ok bytes
    /\ length bytes = (2 * length x)%nat.
Proof.
  destruct (encoded_chunk_decodes x) as (bytes & Hb & Hl).
  eexists _, bytes. split; [apply encodeAudioChunk_ok|].
  split; [|done].
  rewrite base64_encode_length, bytes_of_int16s_length. unfold quantize.
  by rewrite length_map.
Qed.

(** ** The text service *)

Lemma truthy_value_Some v s : truthy_value v = Some s -> v = Some s /\ s <> [].
Proof.
  unfold truthy_value. destruct v as [[|c r]|]; cbn; try done.
  intros [= <-]. done.
Qed.

Lemma truthy_value_truthy s : s <> [] -> truthy_value (Some s) = Some s.
Proof. by destruct s. Qed.

Lemma consume_spec cs fullResult out :
  consume cs fullResult out =
    (fullResult ++ concat (omap truthy_value cs), out ++ omap truthy_value cs).
Proof.
  revert fullResult out. induction cs as [|c cs IH]; intros fullResult out; cbn.
  - by rewrite !app_nil_r.
  - destruct (truthy_value c) as [t|]; rewrite IH; cbn; [|done].
    by rewrite <- !app_assoc.
Qed.

Section ServiceFacts.

Variable toLowerCase : jsstring -> jsstring.
Variable inherited : jsstring -> jsstring -> option jsstring.
Variable setItem_throws :
  gmap (list Z) (list Z) -> jsstring -> jsstring -> option JsError.

Lemma translate_known localStorage online server text sourceLang targetLang c :
  known toLowerCase inherited localStorage text targetLang = Some c ->
  translateTextStream toLowerCase inherited setItem_throws
    localStorage online server text sourceLang targetLang
    = mkRun [c] localStorage (Returned tt).
Proof.
  unfold known, translateTextStream. cbv zeta.
  by intros ->.
Qed.

Lemma translate_unknown localStorage online server text sourceLang targetLang :
  known toLowerCase inherited localStorage text targetLang = None ->
  translateTextStream toLowerCase inherited setItem_throws
    localStorage online server text sourceLang targetLang =
    if negb online then
      mkRun [] localStorage (Raised (Error "Offline: Phrase not in cache"))
    else
      let response := server (translatePrompt text sourceLang targetLang) in
      let out := omap truthy_value (chunks response) in
      match failure response with
      | Some error => mkRun out localStorage (Raised (rethrow unavailable error))
      | None =>
          if truthy (concat out) then
            match setCachedTranslation toLowerCase setItem_throws localStorage
                    (trim (toLowerCase text)) targetLang (concat out) with
            | Returned stored => mkRun out stored (Returned tt)
            | Raised error =>
                mkRun out localStorage (Raised (rethrow unavailable error))
            end
          else mkRun out localStorage (Returned tt)
      end.
Proof.
  unfold known, translateTextStream. cbv zeta.
  intros ->. destruct online; [|done]. cbn [negb]. by rewrite consume_spec.
Qed.

(** What is handed on is never empty. *)
Lemma concat_truthy cs :
  omap truthy_value cs <> [] -> concat (omap truthy_value cs) <> [].
Proof.
  destruct (omap truthy_value cs) as [|t ts] eqn:E; [done|]. intros _.
  assert (Hin : t ∈ omap truthy_value cs) by (rewrite E; by left).
  apply list_elem_of_omap in Hin as (x & _ & Hx).
  apply truthy_value_Some in Hx as [_ Hx]. cbn. by destruct t.
Qed.

Lemma translate_delivered localStorage server text sourceLang targetLang :
  known toLowerCase inherited localStorage text targetLang = None ->
  delivered (translateTextStream toLowerCase inherited setItem_throws
               localStorage true server text sourceLang targetLang)
    = omap truthy_value
        (chunks (server (translatePrompt text sourceLang targetLang))).
Proof.
  intros Hk. rewrite translate_unknown by done. cbn [negb]. cbv zeta.
  destruct (failure _); [done|]. destruct (truthy _); [|done].
  by destruct (setCachedTranslation _ _ _ _ _ _).
Qed.

Lemma translate_stores localStorage server text sourceLang targetLang :
  known toLowerCase inherited localStorage text targetLang = None ->
  let r := translateTextStream toLowerCase inherited setItem_throws
             localStorage true server text sourceLang targetLang in
  result r = Returned tt -> delivered r <> [] ->
  storage r
    = <[cacheKey toLowerCase (trim (toLowerCase text)) targetLang
          := concat (delivered r)]> localStorage.
Proof.
  intros Hk r. subst r. rewrite translate_unknown by done.
  cbn [negb]. cbv zeta.
  destruct (failure _) as [e|]; [done|].
  destruct (truthy _) eqn:Et.
  - unfold setCachedTranslation. by destruct (setItem_throws _ _ _).
  - cbn. intros _ Hne. apply concat_truthy in Hne.
    cbn in Et. by destruct (concat _).
Qed.

(** X15. A phrase that is neither cached nor in the offline table, asked
    while online: the callback receives the non-empty chunks of the
    stream, in order, and nothing else; a call that fails leaves the
    storage as it was; a call that returns after delivering something has
    stored the concatenation of what it delivered under the cache key of
    the phrase and the target, and changed nothing else. *)
Theorem translation_streams_in_order
    (localStorage : gmap (list Z) (list Z)) (server : jsstring -> Stream)
    (text sourceLang targetLang : jsstring) :
  known toLowerCase inherited localStorage text targetLang = None ->
  let response := server (translatePrompt text sourceLang targetLang) in
  let r := translateTextStream toLowerCase inherited setItem_throws
             localStorage true server text sourceLang targetLang in
  delivered r = omap truthy_value (chunks response)
  /\ (forall e, result r = Raised e -> storage r = localStorage)
  /\ (result r = Returned tt -> delivered r <> [] ->
      storage r
        = <[cacheKey toLowerCase (trim (toLowerCase text)) targetLang
              := concat (delivered r)]> localStorage).
Proof.
  intros Hk response r.
  split; [by apply translate_delivered|]. split; [|by apply translate_stores].
  intros e. subst r. rewrite translate_unknown by done.
  cbn [negb]. cbv zeta. fold response.
  destruct (failure response); [done|]. destruct (truthy _); [|done].
  unfold setCachedTranslation. by destruct (setItem_throws _ _ _).
Qed.

(** X16. Round trip through the cache: after a call that returned and
    delivered something, a call for the same target and a text that
    differs at most in case and in surrounding white space, online or not,
    from whatever source language, delivers the whole answer as one chunk,
    asks no server and leaves the storage as it is. *)
Theorem translation_is_served_again
    (localStorage : gmap (list Z) (list Z)) (online online' : bool)
    (server server' : jsstring -> Stream)
    (text text' sourceLang sourceLang' targetLang : jsstring) :
  let r := translateTextStream toLowerCase inherited setItem_throws
             localStorage online server text sourceLang targetLang in
  result r = Returned tt ->
  delivered r <> [] ->
  trim (toLowerCase text') = trim (toLowerCase text) ->
  translateTextStream toLowerCase inherited setItem_throws
    (storage r) online' server' text' sourceLang' targetLang
    = mkRun [concat (delivered r)] (storage r) (Returned tt).
Proof.
  intros r Hres Hdel Htext.
  destruct (known toLowerCase inherited localStorage text targetLang) as [c|] eqn:Hk.
  - assert (Hr : r = mkRun [c] localStorage (Returned tt))
      by (by apply translate_known).
    rewrite Hr. cbn. rewrite app_nil_r. apply translate_known.
    unfold known in *. by rewrite Htext.
  - destruct online.
    2:{ subst r. by rewrite translate_unknown in Hres. }
    pose proof (translate_delivered localStorage server text sourceLang
                  targetLang Hk) as Hd.
    pose proof (translate_stores localStorage server text sourceLang
                  targetLang Hk Hres Hdel) as Hs.
    fold r in Hd, Hs. rewrite Hs.
    apply translate_known. unfold known, getCachedTranslation.
    rewrite Htext.
    rewrite lookup_insert_eq. unfold or_else.
    assert (Hne : concat (delivered r) <> []).
    { rewrite Hd in *. by apply concat_truthy. }
    by rewrite !(truthy_value_truthy _ Hne).
Qed.

(** X17. Offline, [translateTextStream] never writes the storage: it
    delivers the known answer as one chunk, or delivers nothing and throws
    [Offline: Phrase not in cache]. *)
Theorem translation_offline
    (localStorage : gmap (list Z) (list Z)) (server : jsstring -> Stream)
    (text sourceLang targetLang : jsstring) :
  let r := translateTextStream toLowerCase inherited setItem_throws
             localStorage false server text sourceLang targetLang in
  storage r = localStorage
  /\ match known toLowerCase inherited localStorage text targetLang with
     | Some c => delivered r = [c] /\ result r = Returned tt
     | None => delivered r = []
               /\ result r = Raised (Error "Offline: Phrase not in cache")
     end.
Proof.
  intros r. subst r.
  destruct (known toLowerCase inherited localStorage text targetLang)
    as [c|] eqn:Hk.
  - by rewrite (translate_known _ _ _ _ _ _ _ Hk).
  - by rewrite translate_unknown.
Qed.

End ServiceFacts.

Lemma translation_is_served_again_witness :
  let r := translateTextStream ascii_lower no_member roomy ∅ true evening_server
             (js "Good evening") (js "en") (js "fr") in
  translateTextStream ascii_lower no_member roomy (storage r) false silent_server
    (js "  GOOD Evening ") (js "auto") (js "fr")
    = mkRun [concat (delivered r)] (storage r) (Returned tt).
Proof.
  apply (translation_is_served_again ascii_lower no_member roomy ∅ true false
           evening_server silent_server (js "Good evening") (js "  GOOD Evening ")
           (js "en") (js "auto") (js "fr")).
  - vm_compute; reflexivity.
  - vm_compute; discriminate.
  - vm_compute; reflexivity.
Defined.

Lemma translation_streams_in_order_witness :
  let r := translateTextStream ascii_lower no_member roomy ∅ true evening_server
             (js "Good evening") (js "en") (js "fr") in
  delivered r = [js "Bon"; js "soir|||Bon-swar"]
  /\ (result r = Returned tt -> delivered r <> [] ->
      storage r
        = <[cacheKey ascii_lower (trim (ascii_lower (js "Good evening"))) (js "fr")
              := concat (delivered r)]> ∅).
Proof.
  assert (Hk : known ascii_lower no_member ∅ (js "Good evening") (js "fr") = None)
    by (vm_compute; reflexivity).
  destruct (translation_streams_in_order ascii_lower no_member roomy ∅
              evening_server (js "Good evening") (js "en") (js "fr") Hk)
    as (Hd & _ & Hs).
  split; [rewrite Hd; reflexivity | exact Hs].
Defined.

(** ** Speech *)


(** X18. [generateSpeech] makes exactly one sound: the buffer decoded
    from the model's audio when online and the audio is there and
    decodes; otherwise one utterance of the text by the browser's
    synthesis, in English when the language is [auto]. *)
Theorem generateSpeech_sounds_once (online : bool)
    (tts : jsstring -> Outcome (option jsstring)) (text langCode : jsstring) :
  let played :=
    match tts (speechPrompt text langCode) with
    | Returned (Some audio) =>
        if truthy audio
        then match res_bind (decodeBase64Audio audio) decodeAudioToBuffer with
             | Ok b => Some b
             | Throw _ => None
             end
        else None
    | _ => None
    end in
  List.filter audible (generateSpeech online tts text langCode) =
    match (if online then played else None) with
    | Some b => [Start b]
    | None => [Speak text (if jseq langCode (js "auto") then js "en" else langCode)]
    end.
Proof.
  unfold generateSpeech, speak, truthy_value.
  destruct online; [|done]. cbn [negb].
  destruct (tts _) as [[audio|]|e]; try done.
  destruct (truthy audio); [|done].
  destruct (decodeBase64Audio audio) as [bytes|e]; [|done]. cbn [res_bind].
  by destruct (decodeAudioToBuffer bytes).
Qed.

(** X19. [translateImage] throws offline without asking the model; a
    string it returns is never empty; an error of the model with status
    503 is replaced by [Vision AI service unavailable. Try again later.],
    any other is thrown as it is. *)
Theorem translateImage_answers (online : bool)
    (vision : jsstring -> jsstring -> Outcome (option jsstring))
    (base64Image targetLang : jsstring) :
  (online = false ->
   translateImage online vision base64Image targetLang
     = Raised (Error "Vision translation requires internet connection"))
  /\ (forall t, translateImage online vision base64Image targetLang = Returned t ->
        t <> [])
  /\ (forall e, online = true ->
        vision base64Image (imagePrompt targetLang) = Raised e ->
        translateImage online vision base64Image targetLang =
          Raised (if bool_decide (errStatus e = Some 503)
                  then Error "Vision AI service unavailable. Try again later."
                  else e)).
Proof.
  unfold translateImage. split; [by intros ->|]. split.
  - intros t. destruct online; [|done]. cbn.
    destruct (vision _ _) as [text|e]; [|done].
    destruct (truthy_value text) as [s|] eqn:E.
    + apply truthy_value_Some in E as [_ E]. by intros [= <-].
    + by intros [= <-].
  - intros e -> ->. cbn. unfold rethrow. f_equal.
    destruct (errStatus e) as [s|]; [|done].
    destruct (Z.eqb_spec s 503) as [-> | Hne]; [done|].
    rewrite bool_decide_eq_false_2; [done|]. by intros [= ?].
Qed.

Lemma translateImage_answers_witness :
  translateImage true failing_vision (js "AAAA") (js "fr")
    = Raised (Error "Vision AI service unavailable. Try again later.").
Proof.
  destruct (translateImage_answers true failing_vision (js "AAAA") (js "fr"))
    as (_ & _ & H).
  exact (H _ eq_refl eq_refl).
Defined.

(** ** The text mode *)

Lemma starts_with_bars_other c s : c <> bar -> starts_with bars (c :: s) = false.
Proof.
  intros H. change bars with [124; 124; 124]. cbn [starts_with].
  destruct (Z.eqb_spec 124 c) as [E|]; [by subst | done].
Qed.

Lemma split_no_bar piece s :
  bar ∉ s -> split_from bars 0 piece s = [piece ++ s].
Proof.
  revert piece. induction s as [|c s IH]; intros piece H.
  - by rewrite app_nil_r.
  - apply not_elem_of_cons in H as [Hc Hs]. cbn [split_from].
    rewrite starts_with_bars_other by done. rewrite IH by done.
    by rewrite <- app_assoc.
Qed.

Lemma split_at_bars piece t p :
  bar ∉ t ->
  split_from bars 0 piece (t ++ bars ++ p) = (piece ++ t) :: split_from bars 0 [] p.
Proof.
  revert piece. induction t as [|c t IH]; intros piece H.
  - by rewrite app_nil_r.
  - apply not_elem_of_cons in H as [Hc Ht]. cbn [app split_from].
    rewrite starts_with_bars_other by done. rewrite IH by done.
    by rewrite <- app_assoc.
Qed.

Lemma includes_no_bar s : bar ∉ s -> includes bars s = false.
Proof.
  induction s as [|c s IH]; intros H; [done|].
  apply not_elem_of_cons in H as [Hc Hs]. cbn [includes].
  rewrite starts_with_bars_other by done. by rewrite IH.
Qed.

Lemma includes_at_bars t p : includes bars (t ++ bars ++ p) = true.
Proof.
  induction t as [|c t IH]; [done|]. cbn [app includes]. rewrite IH.
  apply orb_true_r.
Qed.

Lemma fold_onChunk_full cs full d :
  fst (fold_left onChunk cs (full, d)) = full ++ concat cs.
Proof.
  revert full d. induction cs as [|c cs IH]; intros full d; cbn [fold_left concat].
  - by rewrite app_nil_r.
  - destruct (onChunk (full, d) c) as [full' d'] eqn:E.
    assert (full' = full ++ c) as ->.
    { unfold onChunk in E. cbn [fst snd] in E.
      destruct (includes _ _); [destruct (tl _)|]; by inversion E. }
    rewrite IH. by rewrite <- app_assoc.
Qed.

(** X20. However an answer [t|||p] is cut into chunks, once the last
    chunk has come the display shows [t] trimmed as the translation and
    [p] trimmed as the pronunciation (for [t] and [p] without a bar, [p]
    not empty). *)
Theorem answer_is_shown (cs : list jsstring) (t p : jsstring) (d : Display) :
  cs <> [] ->
  concat cs = t ++ js "|||" ++ p ->
  bar ∉ t -> bar ∉ p -> p <> [] ->
  let shown := snd (fold_left onChunk cs ([], d)) in
  translatedText shown = trim t /\ pronunciation shown = trim p.
Proof.
  intros Hne Hcat Ht Hp Hpne shown. subst shown.
  destruct cs as [|c cs _] using rev_ind; [done|]. clear Hne.
  rewrite fold_left_app. cbn [fold_left].
  destruct (fold_left onChunk cs ([], d)) as [full d0] eqn:E.
  assert (Hfull : full = concat cs).
  { pose proof (fold_onChunk_full cs [] d) as H. by rewrite E in H. }
  assert (Hall : full ++ c = t ++ bars ++ p).
  { unfold bars. rewrite Hfull, <- Hcat, concat_app. cbn. by rewrite app_nil_r. }
  unfold onChunk. cbn [fst snd]. fold bars. rewrite Hall, includes_at_bars.
  unfold split. rewrite split_at_bars, split_no_bar by done. cbn.
  destruct p; [done|]. by cbn.
Qed.

Lemma answer_is_shown_witness :
  let shown := snd (fold_left onChunk [js "Hola |"; js "|"; js "| Oh-lah"]
                      ([], mkDisplay [] [] true None)) in
  translatedText shown = js "Hola" /\ pronunciation shown = js "Oh-lah".
Proof.
  apply (answer_is_shown [js "Hola |"; js "|"; js "| Oh-lah"] (js "Hola ")
           (js " Oh-lah") (mkDisplay [] [] true None)); try done.
  - apply (bool_decide_unpack _). vm_compute. exact I.
  - apply (bool_decide_unpack _). vm_compute. exact I.
Defined.

Section AppFacts.

Variable toLowerCase : jsstring -> jsstring.
Variable inherited : jsstring -> jsstring -> option jsstring.
Variable setItem_throws :
  gmap (list Z) (list Z) -> jsstring -> jsstring -> option JsError.

(** X21. A phrase that is not known: when the timer body has run the
    spinner is off; offline the display says [Connect to translate new
    phrases], keeps the previous translation and the storage is untouched;
    online, a server error with status 503 is shown as [Service
    unavailable. Try again.]. *)
Theorem failure_is_explained
    (localStorage : gmap (list Z) (list Z)) (online : bool)
    (server : jsstring -> Stream) (sourceText sourceLang targetLang : jsstring)
    (d : Display) :
  known toLowerCase inherited localStorage sourceText targetLang = None ->
  let after := translateNow toLowerCase inherited setItem_throws localStorage
                 online server sourceText sourceLang targetLang d in
  isTranslating (fst after) = false
  /\ (online = false ->
      after = (mkDisplay (translatedText d) (pronunciation d) false
                 (Some (js "Connect to translate new phrases")),
               localStorage))
  /\ (online = true ->
      forall e, failure (server (translatePrompt sourceText sourceLang targetLang))
                  = Some e ->
      errStatus e = Some 503 ->
      errorMsg (fst after) = Some (js "Service unavailable. Try again.")
      /\ snd after = localStorage).
Proof.
  intros Hk after. subst after. unfold translateNow. cbv zeta.
  rewrite translate_unknown by done. split; [done|]. split.
  - intros ->. by cbn.
  - intros -> e He Hs. cbn [negb]. cbv zeta. rewrite He. cbn.
    unfold rethrow. rewrite Hs. cbn. done.
Qed.

End AppFacts.

Lemma failure_is_explained_witness :
  let after := translateNow ascii_lower no_member roomy ∅ false evening_server
                 (js "Good evening") (js "en") (js "fr")
                 (mkDisplay (js "old") [] false None) in
  isTranslating (fst after) = false
  /\ after = (mkDisplay (js "old") [] false
                (Some (js "Connect to translate new phrases")), ∅).
Proof.
  assert (Hk : known ascii_lower no_member ∅ (js "Good evening") (js "fr") = None)
    by (vm_compute; reflexivity).
  destruct (failure_is_explained ascii_lower no_member roomy ∅ false evening_server
              (js "Good evening") (js "en") (js "fr")
              (mkDisplay (js "old") [] false None) Hk) as (H1 & H2 & _).
  split; [exact H1 | by apply H2].
Defined.

(** * The voice component on concrete inputs *)

(** The statements at concrete inputs, on the platform [exact_sums]. *)

#[local] Existing Instance exact_sums.

Lemma turn_complete_flushes_witness :
  let acc := currentTranscriptionRef (exec (receiveTranscriptions hola_turn) initial) in
  let userText := trim (user acc) in
  let modelText := trim (model acc) in
  let w' := exec (onmessage (never SourceNode) hola_turn 0%Q) initial in
  (userText = [] /\ modelText = js "Hola")
  /\ transcripts w' = transcripts initial ++ [mkLine (js "Hola") Model]
  /\ currentTranscriptionRef w' = mkTranscription [] []
  /\ status w' = listening.
Proof.
  pose proof (turn_complete_flushes (never SourceNode) initial hola_turn 0%Q
                eq_refl) as H.
  cbv zeta in H. destruct H as (_ & H & _ & _ & Hcur & Hst).
  split; [split; reflexivity|]. split; [|split; assumption].
  apply H; [reflexivity | discriminate].
Defined.

(** The scenario of the specification: an output delta makes the status
    speaking; the turn-complete marker logs the model turn and makes it
    listening. *)
Example hola_scenario :
  let w0 := exec onopen initial in
  let w1 := exec (onmessage (never SourceNode)
                    (mkMsg None (Some (Some (js "Hola"))) false None false) 0%Q) w0 in
  let w2 := exec (onmessage (never SourceNode)
                    (mkMsg None None true None false) 0%Q) w1 in
  status w0 = listening
  /\ status w1 = speaking
  /\ transcripts w2 = [mkLine (js "Hola") Model]
  /\ status w2 = listening.
Proof. vm_compute. repeat split; reflexivity. Qed.



(** An interruption that arrives together with audio: the two buffers in
    flight and the one just scheduled are stopped, and a buffer that
    comes at clock 2 after the interruption at clock 5 starts at 5. *)
Lemma interruption_clears_playback_witness :
  let w1 := exec (before_interruption interrupt_with_audio 5%Q) busy in
  let w' := exec (onmessage (never SourceNode) interrupt_with_audio 5%Q) busy in
  audioSourcesRef w1 = [0; 1; 2]%nat
  /\ (exists n', nodes w' !! 2%nat = Some n' /\ stopped n' = true)
  /\ audioSourcesRef w' = []
  /\ nextStartTimeRef w' = 5%Q
  /\ status w' = listening
  /\ (exists t, startOf (scheduleAll [(tone 12, 2%Q)] w') 3 = Some t
                /\ (5 <= t)%Q).
Proof.
  pose proof (interruption_clears_playback (never SourceNode) busy
                interrupt_with_audio 5%Q eq_refl eq_refl) as H.
  cbv zeta in H. destruct H as (Hstop & Hset & Hnext & Hst & Hlater).
  split; [reflexivity|]. split; [|split; [exact Hset|]].
  - destruct (Hstop 2%nat (mkSource
        (mkAudioBuffer [32767 # 32768; 0 # 32768; -32768 # 32768]%Q 24000)
        (Some (Qmax 5 (Qmax 0 (Qmax 0 0 + duration (tone 24))
                       + duration (tone 12))))
        false false))
      as (n' & Hn' & [Hs | Hs]).
    + vm_compute. apply list_elem_of_further, list_elem_of_further,
        list_elem_of_here.
    + reflexivity.
    + by exists n'.
    + discriminate Hs.
  - split; [exact Hnext|]. split; [exact Hst|].
    destruct (Hlater [(tone 12, 2%Q)] 0%nat
                (mkSource (tone 12) (Some (Qmax 2 5)) false false) eq_refl)
      as (t & Ht & Hle).
    exists t. split; [|exact Hle]. rewrite <- Ht. reflexivity.
Defined.

(** C2 as stated covers every message with the marker. One whose inline
    audio is not base64 makes the handler throw in part 2: the marker is
    never looked at, the two buffers stay tracked and unstopped, and
    nextStartTime and the status stay as they were. *)
Lemma interruption_skipped_on_bad_payload :
  let w' := exec (onmessage (never SourceNode) interrupt_with_garbage 5%Q) busy in
  interrupted interrupt_with_garbage = true
  /\ outcome (onmessage (never SourceNode) interrupt_with_garbage 5%Q) busy
     = Throw InvalidCharacterError
  /\ audioSourcesRef w' = [0; 1]%nat
  /\ map stopped (nodes w') = [false; false]
  /\ status w' = thinking
  /\ ~ (audioSourcesRef w' = [] /\ nextStartTimeRef w' = 5%Q
        /\ status w' = listening).
Proof.
  vm_compute. repeat (split; [reflexivity|]). intros [H _]. discriminate H.
Qed.

Lemma stopLive_resets_witness :
  let w' := exec (stopLive (never SourceNode) (never nat)) busy in
  audioSourcesRef busy = [0; 1]%nat
  /\ (exists n', nodes w' !! 1%nat = Some n' /\ stopped n' = true)
  /\ audioSourcesRef w' = []
  /\ sessionRef w' = None
  /\ status w' = idle
  /\ nextStartTimeRef w' = 0%Q
  /\ transcripts w' = [mkLine (js "Hola") Model]
  /\ currentTranscriptionRef w' = mkTranscription (js "hi") [].
Proof.
  pose proof (stopLive_resets (never SourceNode) (never nat) busy) as H.
  cbv zeta in H.
  destruct H as (_ & Hstop & Hset & Hsess & _ & Hst & Hnext & Htr & Hcur).
  split; [reflexivity|]. split.
  - destruct (Hstop 1%nat
        (mkSource (tone 12) (Some (Qmax 0 (Qmax 0 0 + duration (tone 24))))
           false false))
      as (n' & Hn' & [Hs | Hs]).
    + vm_compute. apply list_elem_of_further, list_elem_of_here.
    + reflexivity.
    + by exists n'.
    + discriminate Hs.
  - split; [exact Hset|]. split; [exact Hsess|]. split; [exact Hst|].
    split; [exact Hnext|]. split; [exact Htr | exact Hcur].
Defined.

(** C5 as stated also clears the accumulators and the log. From the live
    session [busy] they survive the stop. *)
Lemma stopLive_keeps_transcripts :
  let w' := exec (stopLive (never SourceNode) (never nat)) busy in
  transcripts w' = [mkLine (js "Hola") Model]
  /\ currentTranscriptionRef w' = mkTranscription (js "hi") []
  /\ ~ (transcripts w' = []
        /\ currentTranscriptionRef w' = mkTranscription [] []).
Proof.
  vm_compute. split; [reflexivity|]. split; [reflexivity|].
  intros [H _]. discriminate H.
Qed.

Lemma capture_is_silent_without_session_witness :
  let w := exec (stopLive (never SourceNode) (never nat)) busy in
  sessionRef busy = Some 0%nat
  /\ sessionRef w = None
  /\ onaudioprocess [1 # 2]%Q w = (Ok tt, w)
  /\ sent (exec (onaudioprocess [1 # 2]%Q) w) = sent w.
Proof.
  pose proof (capture_is_silent_without_session (never SourceNode) (never nat)
                (exec (stopLive (never SourceNode) (never nat)) busy)
                [1 # 2]%Q) as [_ H].
  split; [reflexivity|]. split; [reflexivity|]. apply H. reflexivity.
Defined.

(** The first tracked buffer has ended and its [stop()] throws; the
    second one is stopped by the interruption and by [stopLive] alike. *)
Lemma stop_errors_are_swallowed_witness :
  (exists n0, nodes busy_ended !! 0%nat = Some n0 /\ throws_when_ended n0 = true)
  /\ outcome (handleInterruption throws_when_ended interrupt_alone 5%Q) busy_ended
     = Ok tt
  /\ outcome (stopLive throws_when_ended (never nat)) busy_ended = Ok tt
  /\ (exists n',
        nodes (exec (handleInterruption throws_when_ended interrupt_alone 5%Q)
                 busy_ended) !! 1%nat = Some n'
        /\ stopped n' = true /\ buffer n' = tone 12)
  /\ (exists n',
        nodes (exec (stopLive throws_when_ended (never nat)) busy_ended) !! 1%nat
          = Some n'
        /\ stopped n' = true /\ buffer n' = tone 12).
Proof.
  pose proof (stop_errors_are_swallowed throws_when_ended (never nat)
                busy_ended interrupt_alone 5%Q) as (H1 & H2 & Hall).
  split; [eexists; split; reflexivity|]. split; [exact H1|]. split; [exact H2|].
  destruct (Hall 1%nat
              (mkSource (tone 12) (Some (Qmax 0 (Qmax 0 0 + duration (tone 24))))
                 false false)) as [Ha Hb].
  - vm_compute. apply list_elem_of_further, list_elem_of_here.
  - reflexivity.
  - reflexivity.
  - destruct (Ha eq_refl) as (n1 & Hn1 & Hs1 & Hb1 & _).
    destruct Hb as (n2 & Hn2 & Hs2 & Hb2 & _).
    split; [by exists n1 | by exists n2].
Defined.

Lemma conforming_stop_reaches_all_witness :
  let w := run throws_unless_started (never nat) session_history initial in
  (exists n', nodes (exec (stopLive throws_unless_started (never nat)) w) !! 1%nat
                = Some n' /\ stopped n' = true)
  /\ (interrupted interrupt_alone = true ->
      exists n', nodes (exec (handleInterruption throws_unless_started
                                interrupt_alone 3%Q) w) !! 1%nat
                   = Some n' /\ stopped n' = true).
Proof.
  apply (conforming_stop_reaches_all (never nat) session_history
           interrupt_alone 3%Q 1%nat).
  vm_compute. apply list_elem_of_further, list_elem_of_here.
Defined.

Lemma turn_spans_messages_witness :
  let evs := [(mkMsg None (Some (Some (js " Ho"))) false None false, 0%Q);
              (mkMsg None (Some (Some (js "la "))) false None false, 1%Q)] in
  let before := onmessages (never SourceNode) evs initial in
  let w' := exec (onmessage (never SourceNode) interrupt_alone 2%Q) before in
  transcripts before = []
  /\ transcripts
       (exec (onmessage (never SourceNode) (mkMsg None None true None false) 2%Q)
          before)
     = [mkLine (js "Hola") Model].
Proof.
  pose proof (turn_spans_messages (never SourceNode)
    [(mkMsg None (Some (Some (js " Ho"))) false None false, 0%Q);
     (mkMsg None (Some (Some (js "la "))) false None false, 1%Q)]
    (mkMsg None None true None false) 2%Q initial) as H.
  cbv zeta in H. destruct H as [H1 H2]; [by repeat constructor | reflexivity|].
  split; [exact H1|]. rewrite H2. reflexivity.
Defined.

(** A buffer of 1/8000 s from clock 0, a model delta, and a second buffer
    at clock 1/10000: the second one starts at 1/8000. *)
Lemma queued_buffers_play_gapless_witness :
  let final := onmessages (never SourceNode)
                 [(audio_message, 0%Q); (hola_turn, 0%Q);
                  (audio_message, (1 # 10000)%Q)] initial in
  exists t, startOf final 1 = Some t /\ (t == 1 # 8000)%Q.
Proof.
  assert (Ha : inline_audio audio_message = Ok (Some chunk_buffer))
    by (vm_compute; reflexivity).
  destruct (queued_buffers_play_gapless (never SourceNode) initial []
              [(hola_turn, 0%Q)] [] audio_message audio_message 0%Q
              (1 # 10000)%Q chunk_buffer chunk_buffer Ha Ha)
    as (t & Ht & Heq).
  - by repeat constructor.
  - vm_compute; reflexivity.
  - vm_compute. discriminate.
  - exists t. split; [exact Ht|]. rewrite Heq. vm_compute; reflexivity.
Defined.
